(** * Database log sink resource: a shallow embedding and its properties

    The development follows [digitalocean/database/resource_database_logsink.go]
    and the checks of [resource_database_logsink_test.go].

    - Go values of type [interface{}] are the inductive [value]; a type
      assertion [x.(T)] is a partial projection that panics on any other
      dynamic type.
    - [*schema.ResourceData] is a record: the identifier read and written by
      [d.Id()] / [d.SetId], and a store of attributes.  The store of a
      [ResourceData] may hold any value under any key; [schema_record] tells
      the stores the SDK can build for this schema: only keys of the schema,
      each with a value of its declared type.  [d.Get] and [d.GetOk] read
      the store, a key without a stored value reading as the zero value of
      its type in the schema and as nil when the schema has no such key;
      [d.Set] checks the key and the value against the schema and stores
      nothing when it returns an error, so it keeps [schema_record].
      Statements made for every store hold for the records of the schema in
      particular.
    - Calls that leave the function (the keyed lock table and the remote API
      client) are events of a free monad [prog]; [defer] is a combinator over
      it that also runs on a panic.
    - [log.Printf] calls write to the process log only and are left out. *)

From stdpp Require Import gmap strings list fin_maps.
From Stdlib Require Import ZArith Ascii.

Set Warnings "-register-all".

Local Open Scope string_scope.
Local Open Scope Z_scope.

(** ** Go runtime panics and pure code that may panic *)

Inductive panic : Type :=
| InterfaceConversion   (* failed type assertion [x.(T)] *)
| IndexOutOfRange       (* [s[i]] with [i >= len(s)] *)
| NilDereference.       (* field access through a nil pointer *)

Inductive result (A : Type) : Type :=
| Ok (a : A)
| Panicked (p : panic).
Arguments Ok {A} a.
Arguments Panicked {A} p.

#[export] Instance result_bind : MBind result := λ A B f r,
  match r with
  | Ok a => f a
  | Panicked p => Panicked p
  end.

(** ** Remote API data (package godo) *)

(** [float32]: the code only moves these values around, so a value is
    represented by its IEEE-754 bit pattern. *)
Record float32 : Type := Float32 { float32_bits : Z }.

Record DatabaseLogsinkConfig : Type := {
  URL : string;
  IndexPrefix : string;
  IndexDaysMax : Z;
  Timeout : float32;
  Server : string;
  Port : Z;
  TLS : bool;
  Format : string;
  Logline : string;
  SD : string;
  CA : string;
  Key : string;
  Cert : string;
}.

(** [Config] is a pointer in all three structs: [None] is the nil pointer. *)
Record DatabaseLogsink : Type := {
  sink_ID : string;
  sink_Name : string;
  sink_Type : string;
  sink_Config : option DatabaseLogsinkConfig;
}.

Record DatabaseCreateLogsinkRequest : Type := {
  create_Name : string;
  create_Type : string;
  create_Config : option DatabaseLogsinkConfig;
}.

Record DatabaseUpdateLogsinkRequest : Type := {
  update_Config : option DatabaseLogsinkConfig;
}.

(** [Body] stands for the response body as [json.Decoder.Decode] reads it
    into a freshly allocated [godo.DatabaseLogsink]. *)
Record Response : Type := {
  StatusCode : Z;
  Body : DatabaseLogsink;
}.

(** Go's [error], by its message. *)
Abbreviation error := string (only parsing).

(** ** Dynamically typed values *)

(** A Go value of type [interface{}], by its dynamic type: the types the
    source asserts to or stores.  The SDK hands out nil, strings, ints,
    [float64]s, bools and maps of these ([has_type]); a [float32], a list
    and a config pointer are the types that the assertions of
    [expandLogsinkConfig], Update and Create ask for. *)
Inductive value : Type :=
| VNil
| VString (s : string)
| VInt (n : Z)
| VFloat32 (f : float32)
| VFloat64 (bits : Z)
| VBool (b : bool)
| VMap (m : gmap string value)
| VList (l : list value)
| VConfigPtr (c : option DatabaseLogsinkConfig).

Definition assert_string (v : value) : result string :=
  match v with VString s => Ok s | _ => Panicked InterfaceConversion end.
Definition assert_int (v : value) : result Z :=
  match v with VInt n => Ok n | _ => Panicked InterfaceConversion end.
Definition assert_float32 (v : value) : result float32 :=
  match v with VFloat32 f => Ok f | _ => Panicked InterfaceConversion end.
Definition assert_bool (v : value) : result bool :=
  match v with VBool b => Ok b | _ => Panicked InterfaceConversion end.
Definition assert_map (v : value) : result (gmap string value) :=
  match v with VMap m => Ok m | _ => Panicked InterfaceConversion end.
Definition assert_list (v : value) : result (list value) :=
  match v with VList l => Ok l | _ => Panicked InterfaceConversion end.
Definition assert_config_ptr (v : value) : result (option DatabaseLogsinkConfig) :=
  match v with VConfigPtr c => Ok c | _ => Panicked InterfaceConversion end.

(** [m[k]] on a [map[string]interface{}]: a missing key reads as nil. *)
Definition map_index (m : gmap string value) (k : string) : value :=
  default VNil (m !! k).
Arguments map_index : simpl never.

(** [s[i]] on a slice. *)
Definition slice_index {A} (s : list A) (i : nat) : result A :=
  match s !! i with
  | Some a => Ok a
  | None => Panicked IndexOutOfRange
  end.

(** ** The resource schema *)

Inductive ValueType : Type :=
| TypeBool | TypeInt | TypeFloat | TypeString | TypeMap.

Inductive Schema : Type :=
  mkSchema (type : ValueType) (required optional forceNew : bool)
           (elem : list (string * Schema)).

Definition schema_Type (s : Schema) : ValueType :=
  let 'mkSchema t _ _ _ _ := s in t.
Definition schema_Required (s : Schema) : bool :=
  let 'mkSchema _ r _ _ _ := s in r.
Definition schema_Optional (s : Schema) : bool :=
  let 'mkSchema _ _ o _ _ := s in o.
Definition schema_ForceNew (s : Schema) : bool :=
  let 'mkSchema _ _ _ f _ := s in f.
Definition schema_Elem (s : Schema) : list (string * Schema) :=
  let 'mkSchema _ _ _ _ e := s in e.

Definition optional (t : ValueType) : Schema := mkSchema t false true false [].

Definition ResourceDigitalOceanDatabaseLogsink : list (string * Schema) :=
  [ ("name", mkSchema TypeString true false true []);
    ("cluster_id", mkSchema TypeString true false true []);
    ("type", mkSchema TypeString true false false []);
    ("config", mkSchema TypeMap true false false
       [ ("url", optional TypeString);
         ("index_prefix", optional TypeString);
         ("index_days_max", optional TypeInt);
         ("timeout", optional TypeFloat);
         ("server", optional TypeString);
         ("port", optional TypeInt);
         ("tls", optional TypeBool);
         ("format", optional TypeString);
         ("logline", optional TypeString);
         ("sd", optional TypeString);
         ("ca", optional TypeString);
         ("key", optional TypeString);
         ("cert", optional TypeString) ]) ].

Fixpoint schema_lookup (sch : list (string * Schema)) (key : string) : option Schema :=
  match sch with
  | [] => None
  | (k, s) :: rest => if String.eqb k key then Some s else schema_lookup rest key
  end.

Definition zero_value (t : ValueType) : value :=
  match t with
  | TypeBool => VBool false
  | TypeInt => VInt 0
  | TypeFloat => VFloat64 0
  | TypeString => VString ""
  | TypeMap => VMap ∅
  end.

Definition is_zero (t : ValueType) (v : value) : bool :=
  match t, v with
  | TypeBool, VBool false => true
  | TypeInt, VInt n => Z.eqb n 0
  | TypeFloat, VFloat64 b => Z.eqb b 0
  | TypeString, VString s => String.eqb s ""
  | TypeMap, VMap m => bool_decide (dom m = ∅)
  | _, _ => false
  end.

(** A value of a primitive schema type, as the SDK hands it out: [bool],
    [int], [float64], [string]. *)
Definition prim_has_type (t : ValueType) (v : value) : bool :=
  match t, v with
  | TypeBool, VBool _ => true
  | TypeInt, VInt _ => true
  | TypeFloat, VFloat64 _ => true
  | TypeString, VString _ => true
  | _, _ => false
  end.

(** A primitive value as the SDK hands it out. *)
Definition is_primitive (v : value) : bool :=
  match v with
  | VBool _ | VInt _ | VFloat64 _ | VString _ => true
  | _ => false
  end.

(** A value of the type a schema entry declares.  The entries of a map
    are primitive values.  Which keys the SDK admits and which primitive
    type it gives to the entries of a map whose element is a nested
    resource, as for "config", is left open: every map of primitive values
    counts, so that what holds for the values of this type holds whichever
    it is. *)
Definition has_type (s : Schema) (v : value) : bool :=
  match schema_Type s, v with
  | TypeMap, VMap m =>
      forallb (λ kv : string * value, is_primitive kv.2) (map_to_list m)
  | TypeMap, _ => false
  | t, v => prim_has_type t v
  end.

(** ** Local resource state ([*schema.ResourceData]) *)

Record ResourceData : Type := {
  Id : string;
  attrs : gmap string value;
}.

(** The stores the SDK can build for this resource: every attribute is a
    key of the schema and holds a value of its declared type.  The schema
    has no key "id". *)
Definition schema_record (d : ResourceData) : bool :=
  forallb (λ kv : string * value,
             match schema_lookup ResourceDigitalOceanDatabaseLogsink kv.1 with
             | Some s => has_type s kv.2
             | None => false
             end)
          (map_to_list (attrs d)).

Definition SetId (d : ResourceData) (v : string) : ResourceData :=
  {| Id := v; attrs := attrs d |}.

(** [d.Get] on a store: on a [schema_record] this is the zero value or a
    value of the declared type for a key of the schema, and nil for any
    other key. *)
Definition Get (d : ResourceData) (key : string) : value :=
  match attrs d !! key with
  | Some v => v
  | None =>
      match schema_lookup ResourceDigitalOceanDatabaseLogsink key with
      | Some s => zero_value (schema_Type s)
      | None => VNil
      end
  end.

(** [d.GetOk]: the value, and whether the key, a key of the schema, has
    been set to a value other than the zero value of its type. *)
Definition GetOk (d : ResourceData) (key : string) : value * bool :=
  (Get d key,
   match schema_lookup ResourceDigitalOceanDatabaseLogsink key with
   | Some s =>
       match attrs d !! key with
       | Some v => negb (is_zero (schema_Type s) v)
       | None => false
       end
   | None => false
   end).

(** The error of a refused [d.Set], by its message. *)
Definition setError (key : string) (s : option Schema) : error :=
  match s with
  | None => "Invalid address to set: " +:+ key
  | Some s =>
      match schema_Type s with
      | TypeMap => key +:+ ": must be a map"
      | _ => key +:+ ": value of another type"
      end
  end.

(** [d.Set]: the value is stored when the key is a key of the schema and
    the value is of its declared type; otherwise an error is returned and
    nothing is stored.  The source stores strings under string keys and a
    list under the map key; the conversions the SDK applies between
    primitive types play no part there and are not modelled. *)
Definition Set_ (d : ResourceData) (key : string) (v : value)
  : ResourceData * option error :=
  match schema_lookup ResourceDigitalOceanDatabaseLogsink key with
  | Some s =>
      if has_type s v then ({| Id := Id d; attrs := <[key := v]> (attrs d) |}, None)
      else (d, Some (setError key (Some s)))
  | None => (d, Some (setError key None))
  end.

(** ** Identifier and key formats *)

Definition makeDatabaseLogsinkID (clusterID name : string) : string :=
  clusterID +:+ "/logsink/" +:+ name.

(** [fmt.Sprintf("digitalocean_database_cluster/%s/log_sinks", clusterID)] *)
Definition lockKey (clusterID : string) : string :=
  "digitalocean_database_cluster/" +:+ clusterID +:+ "/log_sinks".

(** ** Config expansion and flattening *)

Definition expandLogsinkConfig (config : list value) : result DatabaseLogsinkConfig :=
  c0 ← slice_index config 0;
  configMap ← assert_map c0;
  url ← assert_string (map_index configMap "url");
  indexPrefix ← assert_string (map_index configMap "index_prefix");
  indexDaysMax ← assert_int (map_index configMap "index_days_max");
  timeout ← assert_float32 (map_index configMap "timeout");
  server ← assert_string (map_index configMap "server");
  port ← assert_int (map_index configMap "port");
  tls ← assert_bool (map_index configMap "tls");
  format ← assert_string (map_index configMap "format");
  logline ← assert_string (map_index configMap "logline");
  sd ← assert_string (map_index configMap "sd");
  ca ← assert_string (map_index configMap "ca");
  key ← assert_string (map_index configMap "key");
  cert ← assert_string (map_index configMap "cert");
  Ok {| URL := url; IndexPrefix := indexPrefix; IndexDaysMax := indexDaysMax;
        Timeout := timeout; Server := server; Port := port; TLS := tls;
        Format := format; Logline := logline; SD := sd; CA := ca;
        Key := key; Cert := cert |}.

Definition flattenLogsinkConfig (config : option DatabaseLogsinkConfig)
  : result (list (gmap string value)) :=
  match config with
  | None => Panicked NilDereference
  | Some config =>
      let result : list (gmap string value) := [] in
      let item : gmap string value := ∅ in
      let item := <["urls" := VString (URL config)]> item in
      let item := <["index_prefix" := VString (IndexPrefix config)]> item in
      let item := <["index_days_max" := VInt (IndexDaysMax config)]> item in
      let item := <["timeout" := VFloat32 (Timeout config)]> item in
      let item := <["server" := VString (Server config)]> item in
      let item := <["port" := VInt (Port config)]> item in
      let item := <["tls" := VBool (TLS config)]> item in
      let item := <["format" := VString (Format config)]> item in
      let item := <["logline" := VString (Logline config)]> item in
      let item := <["sd" := VString (SD config)]> item in
      let item := <["ca" := VString (CA config)]> item in
      let item := <["key" := VString (Key config)]> item in
      let item := <["cert" := VString (Cert config)]> item in
      Ok (result ++ [item])%list
  end.

(** A [[]map[string]interface{}] stored through [d.Set] and read back as
    [[]interface{}]. *)
Definition maps_value (l : list (gmap string value)) : value :=
  VList (VMap <$> l).

(** ** Strings (package strings), for a one-byte separator

    The source calls [strings.Contains] and [strings.Split] with the
    separator [","] only. *)

Fixpoint Contains (s : string) (sep : ascii) : bool :=
  match s with
  | EmptyString => false
  | String c rest => if Ascii.eqb c sep then true else Contains rest sep
  end.

(** [Split] returns the pieces of [s] between consecutive separators: one
    more piece than there are separators. *)
Fixpoint Split (s : string) (sep : ascii) : list string :=
  match s with
  | EmptyString => [EmptyString]
  | String c rest =>
      if Ascii.eqb c sep then EmptyString :: Split rest sep
      else match Split rest sep with
           | piece :: pieces => String c piece :: pieces
           | [] => [String c EmptyString]
           end
  end.

Definition comma : ascii := ","%char.

(** ** Diagnostics (package diag) *)

Inductive Severity : Type := SevError | SevWarning.

Record Diagnostic : Type := {
  diag_Severity : Severity;
  diag_Summary : string;
}.

Definition Diagnostics : Type := list Diagnostic.

(** [diag.Errorf] with the format already applied. *)
Definition Errorf (msg : string) : Diagnostics :=
  [{| diag_Severity := SevError; diag_Summary := msg |}].

Definition HasError (ds : Diagnostics) : bool :=
  bool_decide (ds ≠ []).

(** ** Calls that leave the function *)

Inductive event : Type → Type :=
| Lock (key : string) : event unit
| Unlock (key : string) : event unit
| CreateLogsink (clusterID : string) (opts : DatabaseCreateLogsinkRequest)
    : event (option DatabaseLogsink * option Response * option error)
| GetLogsink (clusterID id : string)
    : event (option DatabaseLogsink * option Response * option error)
| UpdateLogsink (clusterID name : string) (opts : DatabaseUpdateLogsinkRequest)
    : event (option Response * option error)
| DeleteLogsink (clusterID id : string)
    : event (option Response * option error).

Inductive prog (A : Type) : Type :=
| Ret (a : A)
| Panic (p : panic)
| Vis {R : Type} (e : event R) (k : R → prog A).
Arguments Ret {A} a.
Arguments Panic {A} p.
Arguments Vis {A R} e k.

Fixpoint bind {A B} (f : A → prog B) (p : prog A) : prog B :=
  match p with
  | Ret a => f a
  | Panic e => Panic e
  | Vis e k => Vis e (λ r, bind f (k r))
  end.

#[export] Instance prog_bind : MBind prog := @bind.

Definition call {R} (e : event R) : prog R := Vis e Ret.

Definition lift {A} (r : result A) : prog A :=
  match r with
  | Ok a => Ret a
  | Panicked p => Panic p
  end.

(** [defer e; body]: the deferred call runs when the function returns and
    when it panics; the panic then goes on. *)
Fixpoint defer {A} (e : event unit) (body : prog A) : prog A :=
  match body with
  | Ret a => Vis e (λ _, Ret a)
  | Panic p => Vis e (λ _, Panic p)
  | Vis e' k => Vis e' (λ r, defer e (k r))
  end.

(** Access through a pointer that may be nil. *)
Definition deref {A} (p : option A) : result A :=
  match p with
  | Some a => Ok a
  | None => Panicked NilDereference
  end.

(** ** The resource operations *)

(** The errors of the first three [d.Set] calls are discarded, as in the
    source; that of the fourth becomes a diagnostic.  The verb [%#v] prints
    the error value in Go syntax, which depends on its dynamic type; the
    message of the error stands for it here. *)
Definition setDatabaseLogsinkAttributes (d : ResourceData) (logsink : option DatabaseLogsink)
  : result (ResourceData * Diagnostics) :=
  logsink ← deref logsink;
  let d := (Set_ d "id" (VString (sink_ID logsink))).1 in
  let d := (Set_ d "name" (VString (sink_Name logsink))).1 in
  let d := (Set_ d "type" (VString (sink_Type logsink))).1 in
  if (GetOk d "config").2 then
    flat ← flattenLogsinkConfig (sink_Config logsink);
    match Set_ d "config" (maps_value flat) with
    | (d, Some err) =>
        Ok (d, Errorf ("[DEBUG] Error setting longsink config - error: " +:+ err))
    | (d, None) => Ok (d, [])
    end
  else
    Ok (d, []).

Definition resourceDigitalOceanDatabaseLogsinkCreate (d : ResourceData)
  : prog (ResourceData * Diagnostics) :=
  clusterID ← lift (assert_string (Get d "cluster_id"));
  name ← lift (assert_string (Get d "name"));
  type ← lift (assert_string (Get d "type"));
  config ← lift (assert_config_ptr (Get d "config"));
  let opts := {| create_Name := name; create_Type := type; create_Config := config |} in
  let key := lockKey clusterID in
  _ ← call (Lock key);
  defer (Unlock key)
    ('(logsink, _, err) ← call (CreateLogsink clusterID opts);
     match err with
     | Some err => Ret (d, Errorf ("Error creating Database Logsink: " +:+ err))
     | None =>
         sink ← lift (deref logsink);
         let d := SetId d (makeDatabaseLogsinkID clusterID (sink_Name sink)) in
         '(d, _) ← lift (setDatabaseLogsinkAttributes d logsink);
         Ret (d, [])
     end).

Definition isNotFound (resp : option Response) : bool :=
  match resp with
  | Some r => StatusCode r =? 404
  | None => false
  end.

Definition resourceDigitalOceanDatabaseLogsinkRead (d : ResourceData)
  : prog (ResourceData * Diagnostics) :=
  id ← lift (assert_string (Get d "id"));
  clusterID ← lift (assert_string (Get d "cluster_id"));
  '(logsink, resp, err) ← call (GetLogsink clusterID id);
  match err with
  | Some err =>
      if isNotFound resp then Ret (SetId d "", [])
      else Ret (d, Errorf ("Error retrieving Database Logsink: " +:+ err))
  | None =>
      '(d, _) ← lift (setDatabaseLogsinkAttributes d logsink);
      Ret (d, [])
  end.

Definition resourceDigitalOceanDatabaseLogsinkUpdate (d : ResourceData)
  : prog (ResourceData * Diagnostics) :=
  clusterID ← lift (assert_string (Get d "cluster_id"));
  name ← lift (assert_string (Get d "name"));
  configList ← lift (assert_list (Get d "config"));
  config ← lift (expandLogsinkConfig configList);
  let opts := {| update_Config := Some config |} in
  let key := lockKey clusterID in
  _ ← call (Lock key);
  defer (Unlock key)
    ('(resp, err) ← call (UpdateLogsink clusterID name opts);
     match err with
     | Some err => Ret (d, Errorf ("Error updating Database Logsink: " +:+ err))
     | None =>
         resp ← lift (deref resp);
         let logsink := Body resp in
         '(d, _) ← lift (setDatabaseLogsinkAttributes d (Some logsink));
         Ret (d, [])
     end).

Definition resourceDigitalOceanDatabaseLogsinkDelete (d : ResourceData)
  : prog (ResourceData * Diagnostics) :=
  clusterID ← lift (assert_string (Get d "cluster_id"));
  id ← lift (assert_string (Get d "id"));
  let key := lockKey clusterID in
  _ ← call (Lock key);
  defer (Unlock key)
    ('(_, err) ← call (DeleteLogsink clusterID id);
     match err with
     | Some err => Ret (d, Errorf ("Error deleting Database Logsink: " +:+ err))
     | None => Ret (SetId d "", [])
     end).

Definition importFormatError : error :=
  "must use the ID of the source database cluster and the name of the logsink joined with a comma (e.g. `id,name`)".

Definition resourceDigitalOceanDatabaseLogsinkImport (d : ResourceData)
  : result (list ResourceData * option error) :=
  if Contains (Id d) comma then
    let s := Split (Id d) comma in
    s0 ← slice_index s 0;
    s1 ← slice_index s 1;
    let d := SetId d (makeDatabaseLogsinkID s0 s1) in
    let d := (Set_ d "cluster_id" (VString s0)).1 in
    let d := (Set_ d "name" (VString s1)).1 in
    Ok ([d], None)
  else
    Ok ([], Some importFormatError).

(** ** Running one operation against an environment

    The environment answers every event and may keep state of its own (the
    remote service).  A run yields the events in the order they happened,
    each with its answer, and how the operation ended. *)

Inductive label : Type :=
| Lbl {R : Type} (e : event R) (r : R).

Inductive outcome (A : Type) : Type :=
| Returned (a : A)
| Crashed (p : panic).
Arguments Returned {A} a.
Arguments Crashed {A} p.

Record Env : Type := {
  World : Type;
  respond : ∀ R, event R → World → R * World;
}.

Fixpoint run {A} (env : Env) (p : prog A) (w : World env)
  : list label * outcome A * World env :=
  match p with
  | Ret a => ([], Returned a, w)
  | Panic e => ([], Crashed e, w)
  | Vis e k =>
      let '(r, w1) := respond env _ e w in
      let '(tr, out, w2) := run env (k r) w1 in
      (Lbl e r :: tr, out, w2)
  end.


Definition trace {A W} (x : list label * outcome A * W) : list label := x.1.1.
Definition result_of {A W} (x : list label * outcome A * W) : outcome A := x.1.2.
Definition world_of {A W} (x : list label * outcome A * W) : W := x.2.

(** ** The lock discipline of one operation *)

(** The cluster whose log sinks a remote call changes, if it changes any. *)
Definition mutates {R} (e : event R) : option string :=
  match e with
  | CreateLogsink clusterID _ => Some clusterID
  | UpdateLogsink clusterID _ _ => Some clusterID
  | DeleteLogsink clusterID _ => Some clusterID
  | Lock _ | Unlock _ | GetLogsink _ _ => None
  end.

Definition is_remote {R} (e : event R) : bool :=
  match e with
  | Lock _ | Unlock _ => false
  | _ => true
  end.

(** What an event needs of the key the caller holds, and what it leaves. *)
Definition allowed {R} (held : option string) (e : event R) : Prop :=
  match e with
  | Lock _ => held = None
  | Unlock key => held = Some key
  | GetLogsink _ _ => True
  | CreateLogsink c _ | UpdateLogsink c _ _ | DeleteLogsink c _ =>
      held = Some (lockKey c)
  end.

Definition after {R} (held : option string) (e : event R) : option string :=
  match e with
  | Lock key => Some key
  | Unlock _ => None
  | _ => held
  end.

(** [disciplined final held p]: started while holding [held], [p] takes a
    key only when it holds none, issues a changing call on a cluster only
    while it holds that cluster's key, releases only the key it holds, and
    holds [final] when it ends, whatever the answers and also on a panic. *)
Fixpoint disciplined {A} (final held : option string) (p : prog A) : Prop :=
  match p with
  | Ret _ | Panic _ => held = final
  | Vis e k => allowed held e ∧ ∀ r, disciplined final (after held e) (k r)
  end.

(** [lock_free p]: no path of [p] touches the lock table. *)
Fixpoint lock_free {A} (p : prog A) : Prop :=
  match p with
  | Ret _ | Panic _ => True
  | Vis e k => is_remote e = true ∧ ∀ r, lock_free (k r)
  end.

(** ** Concurrent callers *)

(** Modelled from the spec: the keyed lock table of package
    [internal/mutexkv], which is not among the sources.  An entry counts
    the callers holding or waiting for its key and records which caller
    holds its mutex; entries appear on the first [Lock] of a key and go
    once nobody holds or awaits it. *)
Record LockEntry : Type := {
  refcount : nat;
  holder : option nat;
}.

Definition holder_of (tbl : gmap string LockEntry) (key : string) : option nat :=
  tbl !! key ≫= holder.

(** Modelled from the spec: a caller entering [Lock(key)] is counted on the
    key's entry, created if missing. *)
Definition lock_enter (key : string) (tbl : gmap string LockEntry)
  : gmap string LockEntry :=
  match tbl !! key with
  | Some en => <[key := {| refcount := S (refcount en); holder := holder en |}]> tbl
  | None => <[key := {| refcount := 1; holder := None |}]> tbl
  end.

(** Modelled from the spec: [Lock(key)] returns to caller [t] only when
    nobody holds the key; [None] means the caller stays blocked. *)
Definition lock_acquire (t : nat) (key : string) (tbl : gmap string LockEntry)
  : option (gmap string LockEntry) :=
  match tbl !! key with
  | Some en =>
      match holder en with
      | None => Some (<[key := {| refcount := refcount en; holder := Some t |}]> tbl)
      | Some _ => None
      end
  | None => None
  end.

(** Modelled from the spec: [Unlock(key)] by the caller holding the key
    releases it and drops the entry once its count reaches zero; by any
    other caller it is a programming error ([None]). *)
Definition unlock (t : nat) (key : string) (tbl : gmap string LockEntry)
  : option (gmap string LockEntry) :=
  match tbl !! key with
  | Some en =>
      if bool_decide (holder en = Some t) then
        match refcount en with
        | S (S n) => Some (<[key := {| refcount := S n; holder := None |}]> tbl)
        | _ => Some (delete key tbl)
        end
      else None
  | None => None
  end.

Inductive thread (A : Type) : Type :=
| Running (p : prog A)
| Waiting (key : string) (k : unit → prog A)
| InFlight {R : Type} (e : event R) (k : R → prog A)
| Failed.
Arguments Running {A} p.
Arguments Waiting {A} key k.
Arguments InFlight {A R} e k.
Arguments Failed {A}.

Record system (A : Type) : Type := {
  threads : list (thread A);
  table : gmap string LockEntry;
}.
Arguments threads {A} s.
Arguments table {A} s.

(** One step of one caller.  A remote call takes two steps, issue and
    completion, and the remote service may answer anything. *)
Inductive step {A} (σ : system A) : system A → Prop :=
| step_lock_enter t key k :
    threads σ !! t = Some (Running (Vis (Lock key) k)) →
    step σ {| threads := <[t := Waiting key k]> (threads σ);
              table := lock_enter key (table σ) |}
| step_lock_acquire t key k tbl :
    threads σ !! t = Some (Waiting key k) →
    lock_acquire t key (table σ) = Some tbl →
    step σ {| threads := <[t := Running (k tt)]> (threads σ); table := tbl |}
| step_unlock t key k tbl :
    threads σ !! t = Some (Running (Vis (Unlock key) k)) →
    unlock t key (table σ) = Some tbl →
    step σ {| threads := <[t := Running (k tt)]> (threads σ); table := tbl |}
| step_unlock_error t key k :
    threads σ !! t = Some (Running (Vis (Unlock key) k)) →
    unlock t key (table σ) = None →
    step σ {| threads := <[t := Failed]> (threads σ); table := table σ |}
| step_issue t R (e : event R) k :
    threads σ !! t = Some (Running (Vis e k)) →
    is_remote e = true →
    step σ {| threads := <[t := InFlight e k]> (threads σ); table := table σ |}
| step_complete t R (e : event R) k r :
    threads σ !! t = Some (InFlight e k) →
    step σ {| threads := <[t := Running (k r)]> (threads σ); table := table σ |}.

Inductive reachable {A} (σ0 : system A) : system A → Prop :=
| reach_here : reachable σ0 σ0
| reach_step σ σ' : reachable σ0 σ → step σ σ' → reachable σ0 σ'.

Inductive operation : Type := OpCreate | OpRead | OpUpdate | OpDelete.

Definition handler (op : operation) (d : ResourceData)
  : prog (ResourceData * Diagnostics) :=
  match op with
  | OpCreate => resourceDigitalOceanDatabaseLogsinkCreate d
  | OpRead => resourceDigitalOceanDatabaseLogsinkRead d
  | OpUpdate => resourceDigitalOceanDatabaseLogsinkUpdate d
  | OpDelete => resourceDigitalOceanDatabaseLogsinkDelete d
  end.

(** The runtime starts one caller per requested operation; no key is held. *)
Definition start (reqs : list (operation * ResourceData))
  : system (ResourceData * Diagnostics) :=
  {| threads := (λ req, Running (handler req.1 req.2)) <$> reqs; table := ∅ |}.

(** Is this caller waiting for the answer of a call that changes the log
    sinks of a cluster with lock key [key]? *)
Definition changing {A} (key : string) (th : thread A) : bool :=
  match th with
  | InFlight e _ =>
      match mutates e with
      | Some c => bool_decide (lockKey c = key)
      | None => false
      end
  | _ => false
  end.

Definition in_flight {A} (key : string) (σ : system A) : nat :=
  length (filter (λ th, changing key th = true) (threads σ)).

(** ** The import key format as the specification words it *)

Fixpoint count_sep (s : string) (sep : ascii) : nat :=
  match s with
  | EmptyString => 0
  | String c rest => (if Ascii.eqb c sep then 1 else 0) + count_sep rest sep
  end.

(** Exactly one comma, and two non-empty parts. *)
Definition spec_import_key_ok (key : string) : bool :=
  match Split key comma with
  | [parentID; name] =>
      Nat.eqb (count_sep key comma) 1
      && negb (String.eqb parentID "") && negb (String.eqb name "")
  | _ => false
  end.

Definition import_succeeds (d : ResourceData) : Prop :=
  ∃ ds, resourceDigitalOceanDatabaseLogsinkImport d = Ok (ds, None) ∧ ds ≠ [].

(** ** Example data *)

Definition exampleConfig : DatabaseLogsinkConfig :=
  {| URL := ""; IndexPrefix := ""; IndexDaysMax := 0; Timeout := Float32 0;
     Server := "localhost"; Port := 443; TLS := true; Format := "rfc5424";
     Logline := ""; SD := ""; CA := ""; Key := ""; Cert := "" |}.

(** The config block as a one-element list holding the attribute map. *)
Definition exampleConfigMap : gmap string value :=
  <["url" := VString ""]> (<["index_prefix" := VString ""]>
  (<["index_days_max" := VInt 0]> (<["timeout" := VFloat32 (Float32 0)]>
  (<["server" := VString "localhost"]> (<["port" := VInt 443]>
  (<["tls" := VBool true]> (<["format" := VString "rfc5424"]>
  (<["logline" := VString ""]> (<["sd" := VString ""]>
  (<["ca" := VString ""]> (<["key" := VString ""]>
  (<["cert" := VString ""]> ∅)))))))))))).

Definition importedRecord : ResourceData :=
  {| Id := "cluster123,mysink"; attrs := ∅ |}.

(** A store with a string under "id" and a one-element list under
    "config": more than a record of the schema can hold. *)
Definition syncedRecord : ResourceData :=
  {| Id := "cluster123/logsink/mysink";
     attrs := <["id" := VString "sink-1"]> (<["cluster_id" := VString "cluster123"]>
              (<["name" := VString "mysink"]> (<["type" := VString "rsyslog"]>
              (<["config" := VList [VMap exampleConfigMap]]> ∅)))) |}.

(** The same store with an empty config list. *)
Definition emptyConfigRecord : ResourceData :=
  {| Id := Id syncedRecord;
     attrs := <["config" := VList []]> (attrs syncedRecord) |}.

(** ** A remote service for the examples

    It holds at most one log sink and ignores identifiers.  A call on a sink
    that is not there is answered with status 404 and an error, as the API
    client does for every status outside 2xx.  Lock events are answered at
    once: the examples run one caller. *)

Definition noSink : DatabaseLogsink :=
  {| sink_ID := ""; sink_Name := ""; sink_Type := ""; sink_Config := None |}.

Definition remoteRespond (R : Type) (e : event R) (w : option DatabaseLogsink)
  : R * option DatabaseLogsink :=
  match e in event R return R * option DatabaseLogsink with
  | Lock _ => (tt, w)
  | Unlock _ => (tt, w)
  | CreateLogsink _ opts =>
      match w with
      | Some _ =>
          ((None, Some {| StatusCode := 409; Body := noSink |},
            Some "409 log sink already exists"), w)
      | None =>
          let sink := {| sink_ID := "sink-1"; sink_Name := create_Name opts;
                         sink_Type := create_Type opts;
                         sink_Config := create_Config opts |} in
          ((Some sink, Some {| StatusCode := 201; Body := sink |}, None), Some sink)
      end
  | GetLogsink _ _ =>
      match w with
      | Some sink => ((Some sink, Some {| StatusCode := 200; Body := sink |}, None), w)
      | None =>
          ((None, Some {| StatusCode := 404; Body := noSink |},
            Some "404 log sink not found"), w)
      end
  | UpdateLogsink _ _ opts =>
      match w with
      | Some sink =>
          let sink := {| sink_ID := sink_ID sink; sink_Name := sink_Name sink;
                         sink_Type := sink_Type sink;
                         sink_Config := update_Config opts |} in
          ((Some {| StatusCode := 200; Body := sink |}, None), Some sink)
      | None =>
          ((Some {| StatusCode := 404; Body := noSink |},
            Some "404 log sink not found"), w)
      end
  | DeleteLogsink _ _ =>
      match w with
      | Some _ => ((Some {| StatusCode := 204; Body := noSink |}, None), None)
      | None =>
          ((Some {| StatusCode := 404; Body := noSink |},
            Some "404 log sink not found"), None)
      end
  end.

Definition remote : Env :=
  {| World := option DatabaseLogsink; respond := remoteRespond |}.

Definition exampleSink : DatabaseLogsink :=
  {| sink_ID := "sink-1"; sink_Name := "mysink"; sink_Type := "rsyslog";
     sink_Config := Some exampleConfig |}.

(** ** Shapes of a run *)

(** The events of a run that either stopped before taking the lock, or took
    the key of the record's cluster, issued one changing call on that
    cluster and released the key, in this order and nothing else. *)
Definition locked_once (d : ResourceData) (tr : list label) : Prop :=
  tr = [] ∨
  ∃ clusterID R (e : event R) (r : R),
    Get d "cluster_id" = VString clusterID ∧
    mutates e = Some clusterID ∧
    tr = [Lbl (Lock (lockKey clusterID)) tt; Lbl e r;
          Lbl (Unlock (lockKey clusterID)) tt].

(** [silent p]: [p] ends without any event. *)
Definition silent {A} (p : prog A) : Prop :=
  match p with
  | Vis _ _ => False
  | _ => True
  end.

(** A store with a config pointer under "config": more than a record of
    the schema can hold. *)
Definition plannedRecord : ResourceData :=
  {| Id := "";
     attrs := <["cluster_id" := VString "cluster123"]>
              (<["name" := VString "mysink"]> (<["type" := VString "rsyslog"]>
              (<["config" := VConfigPtr (Some exampleConfig)]> ∅))) |}.

(** ** Scheduling callers by hand

    [fire t σ] lets caller [t] take the step it can take on its own: enter
    or leave [Lock], do [Unlock], or issue its remote call.  Completing a
    remote call needs the answer and is not a step of [fire]. *)
Definition fire {A} (t : nat) (σ : system A) : option (system A) :=
  match threads σ !! t with
  | Some (Running (Vis e k)) =>
      if is_remote e then
        Some {| threads := <[t := InFlight e k]> (threads σ); table := table σ |}
      else
        match e in event R return (R → prog A) → option (system A) with
        | Lock key => λ k,
            Some {| threads := <[t := Waiting key k]> (threads σ);
                    table := lock_enter key (table σ) |}
        | Unlock key => λ k,
            match unlock t key (table σ) with
            | Some tbl =>
                Some {| threads := <[t := Running (k tt)]> (threads σ); table := tbl |}
            | None =>
                Some {| threads := <[t := Failed]> (threads σ); table := table σ |}
            end
        | _ => λ _, None
        end k
  | Some (Waiting key k) =>
      match lock_acquire t key (table σ) with
      | Some tbl =>
          Some {| threads := <[t := Running (k tt)]> (threads σ); table := tbl |}
      | None => None
      end
  | _ => None
  end.

Fixpoint fires {A} (ts : list nat) (σ : system A) : option (system A) :=
  match ts with
  | [] => Some σ
  | t :: ts => σ' ← fire t σ; fires ts σ'
  end.

(** Two callers on the same cluster: a Create and a Delete. *)
Definition contendingRequests : list (operation * ResourceData) :=
  [(OpCreate, plannedRecord); (OpDelete, syncedRecord)].

(** Caller 0 entered [Lock], got the key and issued its call; caller 1 then
    entered [Lock]. *)
Definition contended : system (ResourceData * Diagnostics) :=
  default (start contendingRequests)
          (fires [0; 0; 0; 1]%nat (start contendingRequests)).

(** ** The invariant of the lock discipline *)

(** A caller's state agrees with the key [held] it is taken to hold. *)
Definition thread_ok {A} (held : option string) (th : thread A) : Prop :=
  match th with
  | Running p => disciplined None held p
  | Waiting key k => held = None ∧ disciplined None (Some key) (k tt)
  | InFlight e k =>
      is_remote e = true ∧ allowed held e ∧ ∀ r, disciplined None held (k r)
  | Failed => True
  end.

(** Every caller holds at most one key and the table records it as the
    holder of that key. *)
Definition lock_invariant {A} (σ : system A) : Prop :=
  ∀ t th, threads σ !! t = Some th →
    ∃ held, thread_ok held th ∧
            ∀ key, held = Some key → holder_of (table σ) key = Some t.

Definition slash : ascii := "/"%char.

(** ** The acceptance checks ([resource_database_logsink_test.go])

    The part of [terraform.State] the checks read: the resources of the
    root module, each with its type and its primary instance (a pointer),
    which holds the identifier and the flat string attributes. *)

Record InstanceState : Type := {
  inst_ID : string;
  inst_Attributes : gmap string string;
}.

Record ResourceState : Type := {
  rs_Type : string;
  rs_Primary : option InstanceState;
}.

(** [m[k]] on a [map[string]string]: a missing key reads as "". *)
Definition attr (m : gmap string string) (k : string) : string :=
  default "" (m !! k).

Definition sinkStillExists : error := "Database Logsink still exists".

(** [testAccCheckDigitalOceanDatabaseLogsinkDestroy], over the resources in
    the order the [range] over the map happens to visit them. *)
Fixpoint testAccCheckDigitalOceanDatabaseLogsinkDestroy (resources : list ResourceState)
  : prog (option error) :=
  match resources with
  | [] => Ret None
  | rs :: rest =>
      if negb (String.eqb (rs_Type rs) "digitalocean_database_log_sink") then
        testAccCheckDigitalOceanDatabaseLogsinkDestroy rest
      else
        primary ← lift (deref (rs_Primary rs));
        let id := attr (inst_Attributes primary) "id" in
        let clusterID := attr (inst_Attributes primary) "cluster_id" in
        '(_, _, err) ← call (GetLogsink clusterID id);
        match err with
        | None => Ret (Some sinkStillExists)
        | Some _ => testAccCheckDigitalOceanDatabaseLogsinkDestroy rest
        end
  end.

(** [testAccCheckDigitalOceanDatabaseLogsinkExists n databaseLogsink]: the
    first component of the result is what [*databaseLogsink] holds after
    the check. *)
Definition testAccCheckDigitalOceanDatabaseLogsinkExists
    (n : string) (databaseLogsink : DatabaseLogsink)
    (resources : gmap string ResourceState)
  : prog (DatabaseLogsink * option error) :=
  match resources !! n with
  | None => Ret (databaseLogsink, Some ("Not found: " +:+ n))
  | Some rs =>
      primary ← lift (deref (rs_Primary rs));
      if String.eqb (inst_ID primary) "" then
        Ret (databaseLogsink, Some "No Database Logsink ID is set")
      else
        let clusterID := attr (inst_Attributes primary) "cluster_id" in
        let name := attr (inst_Attributes primary) "name" in
        '(foundDatabaseLogsink, _, err) ← call (GetLogsink clusterID name);
        match err with
        | Some err => Ret (databaseLogsink, Some err)
        | None =>
            found ← lift (deref foundDatabaseLogsink);
            if negb (String.eqb (sink_Name found) name) then
              Ret (databaseLogsink, Some "Database logsink not found")
            else
              Ret (found, None)
        end
  end.

(** A remote service whose answer to a Get depends on the cluster and the
    identifier only. *)
Definition oracleRespond
    (get : string → string → option DatabaseLogsink * option Response * option error)
    (R : Type) (e : event R) (w : unit) : R * unit :=
  match e in event R return R * unit with
  | Lock _ => (tt, w)
  | Unlock _ => (tt, w)
  | CreateLogsink _ _ => ((None, None, None), w)
  | GetLogsink clusterID id => (get clusterID id, w)
  | UpdateLogsink _ _ _ => ((None, None), w)
  | DeleteLogsink _ _ => ((None, None), w)
  end.

Definition oracle
    (get : string → string → option DatabaseLogsink * option Response * option error)
  : Env :=
  {| World := unit; respond := oracleRespond get |}.

(** Is [rs] a log sink that the remote service still returns? *)
Definition remains
    (get : string → string → option DatabaseLogsink * option Response * option error)
    (rs : ResourceState) : bool :=
  String.eqb (rs_Type rs) "digitalocean_database_log_sink" &&
  match rs_Primary rs with
  | Some primary =>
      match (get (attr (inst_Attributes primary) "cluster_id")
                 (attr (inst_Attributes primary) "id")).2 with
      | None => true
      | Some _ => false
      end
  | None => false
  end.

(** Is [rs] a log sink without a primary instance? *)
Definition dangling (rs : ResourceState) : bool :=
  String.eqb (rs_Type rs) "digitalocean_database_log_sink" &&
  match rs_Primary rs with Some _ => false | None => true end.

Definition exampleState : list ResourceState :=
  [ {| rs_Type := "digitalocean_database_cluster";
       rs_Primary := Some {| inst_ID := "cluster123"; inst_Attributes := ∅ |} |};
    {| rs_Type := "digitalocean_database_log_sink";
       rs_Primary := Some {| inst_ID := "cluster123/logsink/mysink";
                             inst_Attributes :=
                               <["id" := "sink-1"]> (<["cluster_id" := "cluster123"]>
                               (<["name" := "mysink"]> ∅)) |} |} ].

Definition goneEverywhere (clusterID id : string)
  : option DatabaseLogsink * option Response * option error :=
  (None, Some {| StatusCode := 404; Body := noSink |}, Some "404 log sink not found").

Definition exampleResources : gmap string ResourceState :=
  <["digitalocean_database_log_sink.foobar_log_sink" :=
      {| rs_Type := "digitalocean_database_log_sink";
         rs_Primary := Some {| inst_ID := "cluster123/logsink/mysink";
                               inst_Attributes :=
                                 <["id" := "sink-1"]> (<["cluster_id" := "cluster123"]>
                                 (<["name" := "mysink"]> ∅)) |} |}]> ∅.

(** The config block of the acceptance test: server, port, tls and format
    only. *)
Definition testConfigMap : gmap string value :=
  <["server" := VString "localhost"]> (<["port" := VInt 443]>
  (<["tls" := VBool true]> (<["format" := VString "rfc5424"]> ∅))).

(** ** Records of the schema *)

(** The resource of the acceptance test as the SDK holds it: the four
    attributes of the schema, the config a map. *)
Definition schemaRecord : ResourceData :=
  {| Id := "cluster123/logsink/mysink";
     attrs := <["cluster_id" := VString "cluster123"]>
              (<["name" := VString "mysink"]> (<["type" := VString "rsyslog"]>
              (<["config" := VMap testConfigMap]> ∅))) |}.

(** A record of the schema whose name, type and config are out of date. *)
Definition staleRecord : ResourceData :=
  {| Id := "cluster123/logsink/mysink";
     attrs := <["cluster_id" := VString "cluster123"]>
              (<["name" := VString "oldname"]> (<["type" := VString "oldtype"]>
              (<["config" := VMap (<["server" := VString "oldhost"]> ∅)]> ∅))) |}.

(** A config block with every field set, the timeout a [float64] as the
    SDK hands it out. *)
Definition fullConfigMap : gmap string value :=
  <["url" := VString ""]> (<["index_prefix" := VString ""]>
  (<["index_days_max" := VInt 0]> (<["timeout" := VFloat64 0]>
  (<["server" := VString "localhost"]> (<["port" := VInt 443]>
  (<["tls" := VBool true]> (<["format" := VString "rfc5424"]>
  (<["logline" := VString ""]> (<["sd" := VString ""]>
  (<["ca" := VString ""]> (<["key" := VString ""]>
  (<["cert" := VString ""]> ∅)))))))))))).

(** A record of the schema with that config block. *)
Definition fullRecord : ResourceData :=
  {| Id := "cluster123/logsink/mysink";
     attrs := <["cluster_id" := VString "cluster123"]>
              (<["name" := VString "mysink"]> (<["type" := VString "rsyslog"]>
              (<["config" := VMap fullConfigMap]> ∅))) |}.

(** ** Completing a remote call

    [complete env t σ w]: the remote call of caller [t] completes with the
    answer [env] gives in the world [w]. *)
Definition complete {A} (env : Env) (t : nat) (σ : system A) (w : World env)
  : option (system A * World env) :=
  match threads σ !! t with
  | Some (InFlight e k) =>
      let rw := respond env _ e w in
      Some ({| threads := <[t := Running (k rw.1)]> (threads σ); table := table σ |},
            rw.2)
  | _ => None
  end.

(** From [contended], the remote service, which holds no sink, answers the
    Create of caller 0: caller 0 is about to run its deferred [Unlock],
    caller 1 still waits. *)
Definition releasing : system (ResourceData * Diagnostics) :=
  default contended (fst <$> complete remote 0 contended None).

(** * Properties *)

(** ** Strings *)

Lemma Split_nonempty s sep : Split s sep ≠ [].
Proof.
  destruct s as [|c s]; simpl; [done|].
  destruct (Ascii.eqb c sep); [done|].
  destruct (Split s sep); done.
Qed.

Lemma Split_no_sep s sep : Contains s sep = false → Split s sep = [s].
Proof.
  induction s as [|c s IH]; simpl; [done|].
  destruct (Ascii.eqb c sep); [done|].
  intros H. by rewrite (IH H).
Qed.

Lemma Split_app p rest sep :
  Contains p sep = false →
  Split (p +:+ String sep rest) sep = p :: Split rest sep.
Proof.
  induction p as [|c p IH]; simpl.
  - intros _. by rewrite Ascii.eqb_refl.
  - destruct (Ascii.eqb c sep); [done|].
    intros H. by rewrite (IH H).
Qed.

Lemma Contains_app p rest sep : Contains (p +:+ String sep rest) sep = true.
Proof.
  induction p as [|c p IH]; simpl.
  - by rewrite Ascii.eqb_refl.
  - by destruct (Ascii.eqb c sep).
Qed.

(** A string with a separator splits at its first one. *)
Lemma Contains_split_first s sep :
  Contains s sep = true →
  ∃ p rest, Contains p sep = false ∧ s = p +:+ String sep rest.
Proof.
  induction s as [|c s IH]; simpl; [done|].
  destruct (Ascii.eqb c sep) eqn:E.
  - intros _. apply Ascii.eqb_eq in E as ->. by exists "", s.
  - intros H. destruct (IH H) as (p & rest & Hp & ->).
    exists (String c p), rest. simpl. by rewrite E.
Qed.

Lemma Split_length s sep : length (Split s sep) = S (count_sep s sep).
Proof.
  induction s as [|c s IH]; simpl; [done|].
  destruct (Ascii.eqb c sep); simpl; [by rewrite IH|].
  destruct (Split s sep); simpl in *; done.
Qed.

(** ** Import *)

Lemma Import_no_comma d :
  Contains (Id d) comma = false →
  resourceDigitalOceanDatabaseLogsinkImport d = Ok ([], Some importFormatError).
Proof.
  intros H. unfold resourceDigitalOceanDatabaseLogsinkImport. by rewrite H.
Qed.

Lemma Import_comma d parentID rest :
  Contains parentID comma = false →
  Id d = parentID +:+ "," +:+ rest →
  resourceDigitalOceanDatabaseLogsinkImport d =
    Ok ([ {| Id := makeDatabaseLogsinkID parentID (hd "" (Split rest comma));
             attrs := <["name" := VString (hd "" (Split rest comma))]>
                        (<["cluster_id" := VString parentID]> (attrs d)) |} ],
        None).
Proof.
  intros Hp Hid. unfold resourceDigitalOceanDatabaseLogsinkImport.
  rewrite Hid. change ("," +:+ rest) with (String comma rest).
  rewrite Contains_app, (Split_app _ _ _ Hp).
  pose proof (Split_nonempty rest comma) as Hne.
  destruct (Split rest comma) as [|name pieces]; [done|].
  reflexivity.
Qed.

(** C3, as the code has it: Import succeeds exactly on the keys that
    contain a comma, however many and whatever the parts.  Without a comma
    it returns the format error and no record.  With one, the parent
    identifier is the text before the first comma, the name is the text
    between the first comma and the next one (or the end), and the local
    identifier is "<parentID>/logsink/<name>"; in particular on
    "<parentID>,<name>" with no further comma both parts are taken whole. *)
Theorem Import_succeeds_iff_contains_comma d :
  (import_succeeds d ↔ Contains (Id d) comma = true) ∧
  (Contains (Id d) comma = false →
     resourceDigitalOceanDatabaseLogsinkImport d = Ok ([], Some importFormatError)) ∧
  (∀ parentID rest,
     Contains parentID comma = false →
     Id d = parentID +:+ "," +:+ rest →
     resourceDigitalOceanDatabaseLogsinkImport d =
       Ok ([ {| Id := makeDatabaseLogsinkID parentID (hd "" (Split rest comma));
                attrs := <["name" := VString (hd "" (Split rest comma))]>
                           (<["cluster_id" := VString parentID]> (attrs d)) |} ],
           None)) ∧
  (∀ parentID name,
     Contains parentID comma = false →
     Contains name comma = false →
     Id d = parentID +:+ "," +:+ name →
     resourceDigitalOceanDatabaseLogsinkImport d =
       Ok ([ {| Id := parentID +:+ "/logsink/" +:+ name;
                attrs := <["name" := VString name]>
                           (<["cluster_id" := VString parentID]> (attrs d)) |} ],
           None)).
Proof.
  split; [|split; [|split]].
  - split.
    + intros (ds & Hds & Hne).
      destruct (Contains (Id d) comma) eqn:E; [done|].
      rewrite (Import_no_comma _ E) in Hds. by simplify_eq.
    + intros H. destruct (Contains_split_first _ _ H) as (p & rest & Hp & Hid).
      eexists. split; [by apply (Import_comma d p rest)|done].
  - apply Import_no_comma.
  - apply Import_comma.
  - intros parentID name Hp Hn Hid.
    rewrite (Import_comma d parentID name Hp Hid), (Split_no_sep _ _ Hn).
    reflexivity.
Qed.

Lemma Import_succeeds_iff_contains_comma_witness :
  resourceDigitalOceanDatabaseLogsinkImport importedRecord =
    Ok ([ {| Id := "cluster123/logsink/mysink";
             attrs := <["name" := VString "mysink"]>
                        (<["cluster_id" := VString "cluster123"]> ∅) |} ],
        None).
Proof.
  destruct (Import_succeeds_iff_contains_comma importedRecord) as (_ & _ & _ & H).
  apply (H "cluster123" "mysink"); reflexivity.
Defined.

(** C3 as the specification states it fails: a key with two commas, and
    the key "," with two empty parts, are both imported. *)
Lemma Import_accepts_malformed_keys :
  ¬ (∀ d, import_succeeds d ↔ spec_import_key_ok (Id d) = true) ∧
  spec_import_key_ok "a,b,c" = false ∧
  resourceDigitalOceanDatabaseLogsinkImport {| Id := "a,b,c"; attrs := ∅ |} =
    Ok ([ {| Id := "a/logsink/b";
             attrs := <["name" := VString "b"]> (<["cluster_id" := VString "a"]> ∅) |} ],
        None) ∧
  spec_import_key_ok "," = false ∧
  resourceDigitalOceanDatabaseLogsinkImport {| Id := ","; attrs := ∅ |} =
    Ok ([ {| Id := "/logsink/";
             attrs := <["name" := VString ""]> (<["cluster_id" := VString ""]> ∅) |} ],
        None).
Proof.
  split; [|repeat split; reflexivity].
  intros H. specialize (H {| Id := "a,b,c"; attrs := ∅ |}).
  assert (import_succeeds {| Id := "a,b,c"; attrs := ∅ |}) as Hs.
  { eexists. split; [reflexivity|done]. }
  apply H in Hs. discriminate Hs.
Qed.

(** ** Config expansion and flattening *)

Lemma expand_of_map m rest :
  expandLogsinkConfig (VMap m :: rest) =
    (url ← assert_string (map_index m "url");
     indexPrefix ← assert_string (map_index m "index_prefix");
     indexDaysMax ← assert_int (map_index m "index_days_max");
     timeout ← assert_float32 (map_index m "timeout");
     server ← assert_string (map_index m "server");
     port ← assert_int (map_index m "port");
     tls ← assert_bool (map_index m "tls");
     format ← assert_string (map_index m "format");
     logline ← assert_string (map_index m "logline");
     sd ← assert_string (map_index m "sd");
     ca ← assert_string (map_index m "ca");
     key ← assert_string (map_index m "key");
     cert ← assert_string (map_index m "cert");
     Ok {| URL := url; IndexPrefix := indexPrefix; IndexDaysMax := indexDaysMax;
           Timeout := timeout; Server := server; Port := port; TLS := tls;
           Format := format; Logline := logline; SD := sd; CA := ca;
           Key := key; Cert := cert |}).
Proof. reflexivity. Qed.

(** The map [flattenLogsinkConfig] builds has no entry under "url". *)
Lemma flatten_has_no_url c flat :
  flattenLogsinkConfig (Some c) = Ok flat →
  ∃ m, flat = [m] ∧ m !! "url" = None ∧ m !! "urls" = Some (VString (URL c)).
Proof.
  intros H. injection H as <-. eexists. split; [reflexivity|].
  split; vm_compute; reflexivity.
Qed.

(** C4 fails on the code: flattening any config and expanding the result
    panics on the type assertion of the entry "url", because
    [flattenLogsinkConfig] stores the URL under "urls". *)
Theorem flatten_then_expand_panics c :
  (flat ← flattenLogsinkConfig (Some c); expandLogsinkConfig (VMap <$> flat))
  = Panicked InterfaceConversion.
Proof.
  destruct (flattenLogsinkConfig (Some c)) as [flat|p] eqn:E; [|discriminate E].
  destruct (flatten_has_no_url c flat E) as (m & -> & Hurl & _).
  change (expandLogsinkConfig [VMap m] = Panicked InterfaceConversion).
  rewrite expand_of_map. unfold map_index. by rewrite Hurl.
Qed.

(** The assertion on entry [k] of [m] at the head of [H] either fails or
    tells the type of the entry. *)
Ltac assert_entry H m k :=
  destruct (map_index m k) eqn:?; try discriminate H;
  cbn [mbind result_bind assert_string assert_int assert_float32 assert_bool] in H.

(** A successful expansion read every field from the first element of
    the list. *)
Lemma expand_reads_every_field l cfg :
  expandLogsinkConfig l = Ok cfg →
  ∃ m rest, l = VMap m :: rest ∧
    map_index m "url" = VString (URL cfg) ∧
    map_index m "index_prefix" = VString (IndexPrefix cfg) ∧
    map_index m "index_days_max" = VInt (IndexDaysMax cfg) ∧
    map_index m "timeout" = VFloat32 (Timeout cfg) ∧
    map_index m "server" = VString (Server cfg) ∧
    map_index m "port" = VInt (Port cfg) ∧
    map_index m "tls" = VBool (TLS cfg) ∧
    map_index m "format" = VString (Format cfg) ∧
    map_index m "logline" = VString (Logline cfg) ∧
    map_index m "sd" = VString (SD cfg) ∧
    map_index m "ca" = VString (CA cfg) ∧
    map_index m "key" = VString (Key cfg) ∧
    map_index m "cert" = VString (Cert cfg).
Proof.
  intros H. destruct l as [|v rest]; [discriminate H|].
  destruct v as [| | | | | |m| |]; try discriminate H.
  rewrite expand_of_map in H.
  assert_entry H m "url". assert_entry H m "index_prefix".
  assert_entry H m "index_days_max". assert_entry H m "timeout".
  assert_entry H m "server". assert_entry H m "port". assert_entry H m "tls".
  assert_entry H m "format". assert_entry H m "logline". assert_entry H m "sd".
  assert_entry H m "ca". assert_entry H m "key". assert_entry H m "cert".
  injection H as <-. exists m, rest. simpl. by repeat split.
Qed.

(** With the URL stored under "url", as the schema names it and as
    [expandLogsinkConfig] reads it, the flattened map expands to the config
    it came from: the key is the only obstacle to the round trip. *)
Lemma expand_flatten_with_url_key c m :
  flattenLogsinkConfig (Some c) = Ok [m] →
  expandLogsinkConfig [VMap (<["url" := VString (URL c)]> m)] = Ok c.
Proof.
  intros H. injection H as <-. destruct c. reflexivity.
Qed.

(** C10: expansion indexes the first element of the list without a
    length check.  On the empty list it panics with an index out of range;
    an Update of a record whose config list is empty panics there, before
    the lock and before any remote call; and every Update that does not
    panic at once has a non-empty config list. *)
Theorem expand_requires_nonempty_config :
  expandLogsinkConfig [] = Panicked IndexOutOfRange ∧
  (∀ d clusterID name,
     Get d "cluster_id" = VString clusterID →
     Get d "name" = VString name →
     Get d "config" = VList [] →
     resourceDigitalOceanDatabaseLogsinkUpdate d = Panic IndexOutOfRange) ∧
  (∀ d,
     (∀ p, resourceDigitalOceanDatabaseLogsinkUpdate d ≠ Panic p) →
     ∃ c cs, Get d "config" = VList (c :: cs)).
Proof.
  split; [reflexivity|split].
  - intros d clusterID name Hc Hn Hl.
    unfold resourceDigitalOceanDatabaseLogsinkUpdate. by rewrite Hc, Hn, Hl.
  - intros d Hnp. unfold resourceDigitalOceanDatabaseLogsinkUpdate in Hnp.
    destruct (Get d "cluster_id"); try (by destruct (Hnp InterfaceConversion)).
    destruct (Get d "name"); try (by destruct (Hnp InterfaceConversion)).
    destruct (Get d "config") as [| | | | | | |l|];
      try (by destruct (Hnp InterfaceConversion)).
    destruct l as [|c cs]; [by destruct (Hnp IndexOutOfRange)|].
    by exists c, cs.
Qed.

Lemma expand_requires_nonempty_config_witness :
  resourceDigitalOceanDatabaseLogsinkUpdate emptyConfigRecord = Panic IndexOutOfRange.
Proof.
  destruct expand_requires_nonempty_config as (_ & H & _).
  apply (H emptyConfigRecord "cluster123" "mysink"); reflexivity.
Defined.

(** ** Running programs *)

Lemma bind_lift {A B} (r : result A) (f : A → prog B) :
  (lift r ≫= f) = match r with Ok a => f a | Panicked p => Panic p end.
Proof. by destruct r. Qed.

Lemma run_call_bind {A R} env (e : event R) (f : R → prog A) w :
  run env (call e ≫= f) w =
    let r := (respond env _ e w).1 in
    let w1 := (respond env _ e w).2 in
    (Lbl e r :: trace (run env (f r) w1),
     result_of (run env (f r) w1), world_of (run env (f r) w1)).
Proof.
  simpl. destruct (respond env R e w) as [r w1]. simpl.
  by destruct (run env (f r) w1) as [[tr out] w2].
Qed.

Lemma run_defer {A} env (e : event unit) (body : prog A) w :
  run env (defer e body) w =
    let w1 := world_of (run env body w) in
    ((trace (run env body w) ++ [Lbl e tt])%list, result_of (run env body w),
     (respond env _ e w1).2).
Proof.
  revert w. induction body as [a|p|R e' k IH]; intros w; simpl.
  - by destruct (respond env unit e w) as [[] w1].
  - by destruct (respond env unit e w) as [[] w1].
  - destruct (respond env R e' w) as [r w1]. rewrite IH.
    by destruct (run env (k r) w1) as [[tr out] w2].
Qed.

(** A critical section: take the key, run the body, release the key. *)
Lemma run_locked {A} env key (body : prog A) w :
  run env (call (Lock key) ≫= λ _, defer (Unlock key) body) w =
    let w1 := (respond env _ (Lock key) w).2 in
    let w2 := world_of (run env body w1) in
    ((Lbl (Lock key) tt :: trace (run env body w1) ++ [Lbl (Unlock key) tt])%list,
     result_of (run env body w1),
     (respond env _ (Unlock key) w2).2).
Proof.
  rewrite run_call_bind. simpl. rewrite run_defer.
  by destruct (respond env unit (Lock key) w) as [[] w1].
Qed.

(** ** One operation, run alone *)

Lemma run_lift {A} env (r : result A) w :
  run env (lift r) w =
    ([], match r with Ok a => Returned a | Panicked p => Crashed p end, w).
Proof. by destruct r. Qed.

Lemma run_lift_bind {A B} env (r : result A) (f : A → prog B) w :
  run env (lift r ≫= f) w =
    match r with
    | Ok a => run env (f a) w
    | Panicked p => ([], Crashed p, w)
    end.
Proof. by destruct r. Qed.

Lemma silent_lift_bind {A B} (r : result A) (f : A → prog B) :
  (∀ a, silent (f a)) → silent (lift r ≫= f).
Proof. intros H. destruct r; [apply H|done]. Qed.

Lemma run_silent {A} env (p : prog A) w :
  silent p → trace (run env p w) = [] ∧ world_of (run env p w) = w.
Proof. by destruct p. Qed.

(** A critical section around one call followed by local bookkeeping. *)
Lemma run_critical {A R} env key (e : event R) (f : R → prog A) w :
  (∀ r, silent (f r)) →
  run env (call (Lock key) ≫= λ _, defer (Unlock key) (call e ≫= f)) w =
    let w1 := (respond env _ (Lock key) w).2 in
    let r := (respond env _ e w1).1 in
    let w2 := (respond env _ e w1).2 in
    ([Lbl (Lock key) tt; Lbl e r; Lbl (Unlock key) tt],
     result_of (run env (f r) w2),
     (respond env _ (Unlock key) w2).2).
Proof.
  intros Hf. rewrite run_locked. cbv zeta. rewrite run_call_bind. cbv zeta.
  set (w1 := (respond env unit (Lock key) w).2).
  set (r := (respond env R e w1).1).
  set (w2 := (respond env R e w1).2).
  destruct (run_silent env (f r) w2 (Hf r)) as [Ht Hw].
  unfold trace, result_of, world_of in *.
  destruct (run env (f r) w2) as [[tr out] w3]. simpl in *. by subst.
Qed.

Lemma setDatabaseLogsinkAttributes_silent {A} d logsink (f : _ → prog A) :
  (∀ a, silent (f a)) → silent (lift (setDatabaseLogsinkAttributes d logsink) ≫= f).
Proof. apply silent_lift_bind. Qed.

Lemma Create_body_silent d clusterID
    (r : option DatabaseLogsink * option Response * option error) :
  silent
    (let '(logsink, _, err) := r in
     match err with
     | Some err => Ret (d, Errorf ("Error creating Database Logsink: " +:+ err))
     | None =>
         sink ← lift (deref logsink);
         let d := SetId d (makeDatabaseLogsinkID clusterID (sink_Name sink)) in
         '(d, _) ← lift (setDatabaseLogsinkAttributes d logsink);
         Ret (d, [])
     end).
Proof.
  destruct r as [[logsink resp] [err|]]; [done|].
  apply silent_lift_bind. intros sink. apply silent_lift_bind. by intros [].
Qed.

Lemma Update_body_silent d (r : option Response * option error) :
  silent
    (let '(resp, err) := r in
     match err with
     | Some err => Ret (d, Errorf ("Error updating Database Logsink: " +:+ err))
     | None =>
         resp ← lift (deref resp);
         let logsink := Body resp in
         '(d, _) ← lift (setDatabaseLogsinkAttributes d (Some logsink));
         Ret (d, [])
     end).
Proof.
  destruct r as [resp [err|]]; [done|].
  apply silent_lift_bind. intros r. apply silent_lift_bind. by intros [].
Qed.

Lemma Delete_body_silent d (r : option Response * option error) :
  silent
    (let '(_, err) := r in
     match err with
     | Some err => Ret (d, Errorf ("Error deleting Database Logsink: " +:+ err))
     | None => Ret (SetId d "", [])
     end).
Proof. by destruct r as [resp [err|]]. Qed.

(** The three changing operations, once their type assertions hold. *)
Lemma Create_unfold d clusterID name type config :
  Get d "cluster_id" = VString clusterID →
  Get d "name" = VString name →
  Get d "type" = VString type →
  Get d "config" = VConfigPtr config →
  resourceDigitalOceanDatabaseLogsinkCreate d =
    (call (Lock (lockKey clusterID)) ≫= λ _,
     defer (Unlock (lockKey clusterID))
       (call (CreateLogsink clusterID
                {| create_Name := name; create_Type := type; create_Config := config |})
        ≫= λ '(logsink, _, err),
          match err with
          | Some err => Ret (d, Errorf ("Error creating Database Logsink: " +:+ err))
          | None =>
              sink ← lift (deref logsink);
              let d := SetId d (makeDatabaseLogsinkID clusterID (sink_Name sink)) in
              '(d, _) ← lift (setDatabaseLogsinkAttributes d logsink);
              Ret (d, [])
          end)).
Proof.
  intros Hc Hn Ht Hcfg. unfold resourceDigitalOceanDatabaseLogsinkCreate.
  by rewrite Hc, Hn, Ht, Hcfg.
Qed.

Lemma Update_unfold d clusterID name configList config :
  Get d "cluster_id" = VString clusterID →
  Get d "name" = VString name →
  Get d "config" = VList configList →
  expandLogsinkConfig configList = Ok config →
  resourceDigitalOceanDatabaseLogsinkUpdate d =
    (call (Lock (lockKey clusterID)) ≫= λ _,
     defer (Unlock (lockKey clusterID))
       (call (UpdateLogsink clusterID name {| update_Config := Some config |})
        ≫= λ '(resp, err),
          match err with
          | Some err => Ret (d, Errorf ("Error updating Database Logsink: " +:+ err))
          | None =>
              resp ← lift (deref resp);
              let logsink := Body resp in
              '(d, _) ← lift (setDatabaseLogsinkAttributes d (Some logsink));
              Ret (d, [])
          end)).
Proof.
  intros Hc Hn Hl He. unfold resourceDigitalOceanDatabaseLogsinkUpdate.
  rewrite Hc, Hn, Hl. simpl. by rewrite He.
Qed.

Lemma Delete_unfold d clusterID id :
  Get d "cluster_id" = VString clusterID →
  Get d "id" = VString id →
  resourceDigitalOceanDatabaseLogsinkDelete d =
    (call (Lock (lockKey clusterID)) ≫= λ _,
     defer (Unlock (lockKey clusterID))
       (call (DeleteLogsink clusterID id)
        ≫= λ '(_, err),
          match err with
          | Some err => Ret (d, Errorf ("Error deleting Database Logsink: " +:+ err))
          | None => Ret (SetId d "", [])
          end)).
Proof.
  intros Hc Hi. unfold resourceDigitalOceanDatabaseLogsinkDelete.
  by rewrite Hc, Hi.
Qed.

(** Each changing operation either panics on a type assertion (or, for
    Update, in the expansion) before its first event, or passes them. *)
Lemma Create_cases d :
  (∃ p, resourceDigitalOceanDatabaseLogsinkCreate d = Panic p) ∨
  (∃ clusterID name type config,
     Get d "cluster_id" = VString clusterID ∧ Get d "name" = VString name ∧
     Get d "type" = VString type ∧ Get d "config" = VConfigPtr config).
Proof.
  unfold resourceDigitalOceanDatabaseLogsinkCreate.
  destruct (Get d "cluster_id"); try (left; by eexists).
  destruct (Get d "name"); try (left; by eexists).
  destruct (Get d "type"); try (left; by eexists).
  destruct (Get d "config"); try (left; by eexists).
  right. by do 4 eexists.
Qed.

Lemma Update_cases d :
  (∃ p, resourceDigitalOceanDatabaseLogsinkUpdate d = Panic p) ∨
  (∃ clusterID name configList config,
     Get d "cluster_id" = VString clusterID ∧ Get d "name" = VString name ∧
     Get d "config" = VList configList ∧
     expandLogsinkConfig configList = Ok config).
Proof.
  unfold resourceDigitalOceanDatabaseLogsinkUpdate.
  destruct (Get d "cluster_id"); try (left; by eexists).
  destruct (Get d "name"); try (left; by eexists).
  destruct (Get d "config") as [| | | | | | |l|]; try (left; by eexists).
  simpl. destruct (expandLogsinkConfig l) eqn:E; [|left; by eexists].
  right. by do 4 eexists.
Qed.

Lemma Delete_cases d :
  (∃ p, resourceDigitalOceanDatabaseLogsinkDelete d = Panic p) ∨
  (∃ clusterID id,
     Get d "cluster_id" = VString clusterID ∧ Get d "id" = VString id).
Proof.
  unfold resourceDigitalOceanDatabaseLogsinkDelete.
  destruct (Get d "cluster_id"); try (left; by eexists).
  destruct (Get d "id"); try (left; by eexists).
  right. by do 2 eexists.
Qed.

(** C9: in every run of Create, Update and Delete, whatever the remote
    service answers and however the operation ends (no error, an error
    reported by the remote call, or a panic after the call), the events are
    either none at all (the operation stopped before taking the lock) or
    exactly: lock of the cluster's key, one changing call, unlock of the
    same key.  The unlock is the last event before the operation ends and
    there is exactly one. *)
Theorem lock_released_exactly_once env d w :
  locked_once d (trace (run env (resourceDigitalOceanDatabaseLogsinkCreate d) w)) ∧
  locked_once d (trace (run env (resourceDigitalOceanDatabaseLogsinkUpdate d) w)) ∧
  locked_once d (trace (run env (resourceDigitalOceanDatabaseLogsinkDelete d) w)).
Proof.
  split; [|split].
  - destruct (Create_cases d) as [[p ->]|(c & n & t & cfg & Hc & Hn & Ht & Hcfg)];
      [by left|].
    right. rewrite (Create_unfold d c n t cfg Hc Hn Ht Hcfg).
    rewrite run_critical by apply Create_body_silent.
    do 4 eexists. split; [eassumption|]. split; [|reflexivity]. reflexivity.
  - destruct (Update_cases d) as [[p ->]|(c & n & l & cfg & Hc & Hn & Hl & He)];
      [by left|].
    right. rewrite (Update_unfold d c n l cfg Hc Hn Hl He).
    rewrite run_critical by apply Update_body_silent.
    do 4 eexists. split; [eassumption|]. split; [|reflexivity]. reflexivity.
  - destruct (Delete_cases d) as [[p ->]|(c & i & Hc & Hi)]; [by left|].
    right. rewrite (Delete_unfold d c i Hc Hi).
    rewrite run_critical by apply Delete_body_silent.
    do 4 eexists. split; [eassumption|]. split; [|reflexivity]. reflexivity.
Qed.

(** ** Records of the schema *)

Lemma schema_record_lookup d key v :
  schema_record d = true →
  attrs d !! key = Some v →
  ∃ s, schema_lookup ResourceDigitalOceanDatabaseLogsink key = Some s ∧
       has_type s v = true.
Proof.
  unfold schema_record. intros H Hk.
  rewrite forallb_forall in H.
  assert (In (key, v) (map_to_list (attrs d))) as Hin.
  { by apply list_elem_of_In, elem_of_map_to_list. }
  apply H in Hin.
  change ((key, v).1) with key in Hin. change ((key, v).2) with v in Hin.
  destruct (schema_lookup ResourceDigitalOceanDatabaseLogsink key) as [s|];
    [by exists s|discriminate].
Qed.

(** The schema has no key "id": on a record of the schema it reads as nil. *)
Lemma schema_record_id d : schema_record d = true → Get d "id" = VNil.
Proof.
  intros H. unfold Get.
  destruct (attrs d !! "id") as [v|] eqn:E; [|reflexivity].
  destruct (schema_record_lookup d "id" v H E) as (s & Hs & _).
  vm_compute in Hs. discriminate Hs.
Qed.

Lemma has_type_string s v :
  schema_Type s = TypeString → has_type s v = true → ∃ x, v = VString x.
Proof.
  unfold has_type. intros ->. destruct v; try discriminate. by eexists.
Qed.

Lemma has_type_map s v :
  schema_Type s = TypeMap → has_type s v = true → ∃ m, v = VMap m.
Proof.
  unfold has_type. intros ->. destruct v; try discriminate. by eexists.
Qed.

(** The three string attributes read as strings. *)
Lemma schema_record_string d key :
  schema_record d = true →
  key = "cluster_id" ∨ key = "name" ∨ key = "type" →
  ∃ x, Get d key = VString x.
Proof.
  intros H Hkey. unfold Get.
  destruct (attrs d !! key) as [v|] eqn:E.
  - destruct (schema_record_lookup d key v H E) as (s & Hs & Ht).
    apply (has_type_string s); [|done].
    destruct Hkey as [->|[->| ->]]; vm_compute in Hs; by injection Hs as <-.
  - destruct Hkey as [->|[->| ->]]; by eexists.
Qed.

(** The config reads as a map. *)
Lemma schema_record_config d :
  schema_record d = true → ∃ m, Get d "config" = VMap m.
Proof.
  intros H. unfold Get.
  destruct (attrs d !! "config") as [v|] eqn:E.
  - destruct (schema_record_lookup d "config" v H E) as (s & Hs & Ht).
    apply (has_type_map s); [|done].
    vm_compute in Hs. by injection Hs as <-.
  - by eexists.
Qed.

(** On a record of the schema each of the four operations stops at a type
    assertion before its first event: Read and Delete at the assertion of
    the "id" attribute, which is nil; Create and Update at the assertion of
    the "config" attribute, which is a map and neither a config pointer nor
    a list. *)
Lemma handler_panics op d :
  schema_record d = true → handler op d = Panic InterfaceConversion.
Proof.
  intros H.
  destruct (schema_record_string d "cluster_id" H) as [c Hc]; [by left|].
  destruct (schema_record_string d "name" H) as [n Hn]; [by right; left|].
  destruct (schema_record_string d "type" H) as [t Ht]; [by right; right|].
  destruct (schema_record_config d H) as [m Hm].
  pose proof (schema_record_id d H) as Hi.
  destruct op; unfold handler,
    resourceDigitalOceanDatabaseLogsinkCreate, resourceDigitalOceanDatabaseLogsinkRead,
    resourceDigitalOceanDatabaseLogsinkUpdate, resourceDigitalOceanDatabaseLogsinkDelete;
    rewrite ?Hc, ?Hn, ?Ht, ?Hm, ?Hi; reflexivity.
Qed.

(** [d.Set] keeps a record within the schema. *)
Lemma schema_record_insert d key v s :
  schema_record d = true →
  schema_lookup ResourceDigitalOceanDatabaseLogsink key = Some s →
  has_type s v = true →
  schema_record {| Id := Id d; attrs := <[key := v]> (attrs d) |} = true.
Proof.
  intros H Hs Hv. unfold schema_record. apply forallb_forall.
  intros [k x] Hin. apply list_elem_of_In, elem_of_map_to_list in Hin.
  simpl in Hin. change ((k, x).1) with k. change ((k, x).2) with x.
  destruct (decide (key = k)) as [<-|Hne].
  - rewrite lookup_insert_eq in Hin. injection Hin as <-. by rewrite Hs.
  - rewrite lookup_insert_ne in Hin by done.
    destruct (schema_record_lookup d k x H Hin) as (s' & -> & Hx). done.
Qed.

Lemma Set_schema_record d key v :
  schema_record d = true → schema_record (Set_ d key v).1 = true.
Proof.
  intros H. unfold Set_.
  destruct (schema_lookup ResourceDigitalOceanDatabaseLogsink key) as [s|] eqn:Hs;
    [|done].
  destruct (has_type s v) eqn:Hv; [|done].
  by apply (schema_record_insert d key v s).
Qed.

(** ** The operations on records of the schema *)

(** C6 fails on the code: Create never gets to the external call.  On
    every record of the schema the "config" attribute read at line 120 is
    a map; the assertion to a config pointer panics and Create ends before
    it takes the lock.  There is no event at all, so no Create call that
    could fail, no error returned and nothing stored, whatever the remote
    service would answer. *)
Theorem Create_panics_before_lock env w d :
  schema_record d = true →
  assert_config_ptr (Get d "config") = Panicked InterfaceConversion ∧
  run env (resourceDigitalOceanDatabaseLogsinkCreate d) w =
    ([], Crashed InterfaceConversion, w).
Proof.
  intros H. split.
  - by destruct (schema_record_config d H) as [m ->].
  - change (resourceDigitalOceanDatabaseLogsinkCreate d) with (handler OpCreate d).
    by rewrite (handler_panics OpCreate d H).
Qed.

Lemma Create_panics_before_lock_witness :
  assert_config_ptr (Get schemaRecord "config") = Panicked InterfaceConversion ∧
  run remote (resourceDigitalOceanDatabaseLogsinkCreate schemaRecord) (Some exampleSink) =
    ([], Crashed InterfaceConversion, Some exampleSink).
Proof.
  exact (Create_panics_before_lock remote (Some exampleSink) schemaRecord eq_refl).
Defined.

(** C5 fails on the code: Read never gets to the external Get.  The schema
    has no attribute "id", so on every record of the schema [d.Get("id")]
    at line 144 is nil, its assertion to a string panics and Read ends
    without an event: the not-found answer of the remote service is never
    seen, the identifier is not cleared and no error is returned. *)
Theorem Read_panics_before_get env w d :
  schema_record d = true →
  assert_string (Get d "id") = Panicked InterfaceConversion ∧
  run env (resourceDigitalOceanDatabaseLogsinkRead d) w =
    ([], Crashed InterfaceConversion, w).
Proof.
  intros H. split.
  - by rewrite (schema_record_id d H).
  - change (resourceDigitalOceanDatabaseLogsinkRead d) with (handler OpRead d).
    by rewrite (handler_panics OpRead d H).
Qed.

Lemma Read_panics_before_get_witness :
  assert_string (Get schemaRecord "id") = Panicked InterfaceConversion ∧
  run remote (resourceDigitalOceanDatabaseLogsinkRead schemaRecord) None =
    ([], Crashed InterfaceConversion, None).
Proof. exact (Read_panics_before_get remote None schemaRecord eq_refl). Defined.

(** C2 fails on the code: Delete never gets to the external Delete.  On
    every record of the schema [d.Get("id")] at line 212 is nil, its
    assertion to a string panics and Delete ends before it takes the lock:
    no call is made, the identifier is not cleared and the operation does
    not return, the first time as any later time. *)
Theorem Delete_panics_before_lock env w d :
  schema_record d = true →
  assert_string (Get d "id") = Panicked InterfaceConversion ∧
  run env (resourceDigitalOceanDatabaseLogsinkDelete d) w =
    ([], Crashed InterfaceConversion, w).
Proof.
  intros H. split.
  - by rewrite (schema_record_id d H).
  - change (resourceDigitalOceanDatabaseLogsinkDelete d) with (handler OpDelete d).
    by rewrite (handler_panics OpDelete d H).
Qed.

Lemma Delete_panics_before_lock_witness :
  assert_string (Get schemaRecord "id") = Panicked InterfaceConversion ∧
  run remote (resourceDigitalOceanDatabaseLogsinkDelete schemaRecord) None =
    ([], Crashed InterfaceConversion, None).
Proof. exact (Delete_panics_before_lock remote None schemaRecord eq_refl). Defined.

(** C7 fails on the code: Update never builds a request.  On every record
    of the schema the "config" attribute read at line 185 is a map; its
    assertion to a list panics and Update ends before it takes the lock:
    no request is sent, with the type or without it. *)
Theorem Update_panics_before_lock env w d :
  schema_record d = true →
  assert_list (Get d "config") = Panicked InterfaceConversion ∧
  run env (resourceDigitalOceanDatabaseLogsinkUpdate d) w =
    ([], Crashed InterfaceConversion, w).
Proof.
  intros H. split.
  - by destruct (schema_record_config d H) as [m ->].
  - change (resourceDigitalOceanDatabaseLogsinkUpdate d) with (handler OpUpdate d).
    by rewrite (handler_panics OpUpdate d H).
Qed.

Lemma Update_panics_before_lock_witness :
  assert_list (Get fullRecord "config") = Panicked InterfaceConversion ∧
  run remote (resourceDigitalOceanDatabaseLogsinkUpdate fullRecord) (Some exampleSink) =
    ([], Crashed InterfaceConversion, Some exampleSink).
Proof.
  exact (Update_panics_before_lock remote (Some exampleSink) fullRecord eq_refl).
Defined.

(** ** What [setDatabaseLogsinkAttributes] stores *)

Lemma Get_Set_other d key key' v : key ≠ key' → Get (Set_ d key v).1 key' = Get d key'.
Proof.
  intros Hne. unfold Set_.
  destruct (schema_lookup ResourceDigitalOceanDatabaseLogsink key) as [s|]; [|done].
  destruct (has_type s v); [|done].
  unfold Get. simpl. by rewrite lookup_insert_ne.
Qed.

Lemma GetOk_Set_other d key key' v :
  key ≠ key' → (GetOk (Set_ d key v).1 key').2 = (GetOk d key').2.
Proof.
  intros Hne. unfold Set_.
  destruct (schema_lookup ResourceDigitalOceanDatabaseLogsink key) as [s|]; [|done].
  destruct (has_type s v); [|done].
  unfold GetOk. simpl. by rewrite lookup_insert_ne.
Qed.

Lemma Id_Set d key v : Id (Set_ d key v).1 = Id d.
Proof.
  unfold Set_.
  destruct (schema_lookup ResourceDigitalOceanDatabaseLogsink key) as [s|]; [|done].
  by destruct (has_type s v).
Qed.

Lemma Set_id_refused d v : Set_ d "id" v = (d, Some "Invalid address to set: id").
Proof. reflexivity. Qed.

Lemma Set_config_list_refused d l :
  Set_ d "config" (VList l) = (d, Some "config: must be a map").
Proof. reflexivity. Qed.

Lemma Get_Set_string d key x :
  key = "name" ∨ key = "type" → Get (Set_ d key (VString x)).1 key = VString x.
Proof.
  intros [->| ->]; unfold Set_, Get; simpl; by rewrite lookup_insert_eq.
Qed.

(** The record [setDatabaseLogsinkAttributes] returns, when it returns. *)
Lemma setDatabaseLogsinkAttributes_result d sink d' ds :
  setDatabaseLogsinkAttributes d (Some sink) = Ok (d', ds) →
  d' = (Set_ (Set_ d "name" (VString (sink_Name sink))).1
             "type" (VString (sink_Type sink))).1 ∧
  ds = if (GetOk d "config").2
       then Errorf "[DEBUG] Error setting longsink config - error: config: must be a map"
       else [].
Proof.
  unfold setDatabaseLogsinkAttributes. cbn [deref mbind result_bind].
  rewrite Set_id_refused. cbn [fst].
  rewrite !GetOk_Set_other by done.
  destruct (GetOk d "config").2.
  - destruct (flattenLogsinkConfig (sink_Config sink)) as [flat|p];
      cbn [mbind result_bind]; [|intros; discriminate].
    unfold maps_value. rewrite Set_config_list_refused.
    by intros [= <- <-].
  - by intros [= <- <-].
Qed.

(** C8 fails on the code: the function that stores what a Read, a Create
    or an Update got from the remote service overwrites the name and the
    type only.  Whenever it returns it has stored no "id" (the schema has
    no such key and the error of [d.Set] is dropped) and has left the
    config as it was: without a config in the record nothing is written,
    with one [d.Set] refuses the list that [flattenLogsinkConfig] builds
    for a key of type map, and the error is returned as a diagnostic.  The
    identifier and every other attribute are as before. *)
Theorem setDatabaseLogsinkAttributes_keeps_id_and_config d sink d' ds :
  setDatabaseLogsinkAttributes d (Some sink) = Ok (d', ds) →
  Get d' "name" = VString (sink_Name sink) ∧
  Get d' "type" = VString (sink_Type sink) ∧
  Get d' "id" = Get d "id" ∧
  (schema_record d = true → Get d' "id" = VNil ∧ schema_record d' = true) ∧
  Get d' "config" = Get d "config" ∧
  HasError ds = (GetOk d "config").2 ∧
  Id d' = Id d ∧
  (∀ key, key ≠ "name" → key ≠ "type" → Get d' key = Get d key).
Proof.
  intros H. apply setDatabaseLogsinkAttributes_result in H as [-> ->].
  split; [|split; [|split; [|split; [|split; [|split; [|split]]]]]].
  - rewrite Get_Set_other by done. apply Get_Set_string. by left.
  - apply Get_Set_string. by right.
  - by rewrite !Get_Set_other by done.
  - intros Hd. split.
    + rewrite !Get_Set_other by done. by apply schema_record_id.
    + by do 2 apply Set_schema_record.
  - by rewrite !Get_Set_other by done.
  - by destruct (GetOk d "config").2.
  - by rewrite !Id_Set.
  - intros key Hn Ht. by rewrite !Get_Set_other by done.
Qed.

Lemma setDatabaseLogsinkAttributes_keeps_id_and_config_witness :
  Get staleRecord "config" = VMap (<["server" := VString "oldhost"]> ∅) ∧
  ∃ d' ds,
    setDatabaseLogsinkAttributes staleRecord (Some exampleSink) = Ok (d', ds) ∧
    Get d' "name" = VString "mysink" ∧
    Get d' "type" = VString "rsyslog" ∧
    Get d' "id" = VNil ∧
    Get d' "config" = VMap (<["server" := VString "oldhost"]> ∅) ∧
    HasError ds = true.
Proof.
  split; [reflexivity|]. eexists _, _. split; [reflexivity|].
  pose proof (setDatabaseLogsinkAttributes_keeps_id_and_config
                staleRecord exampleSink _ _ eq_refl)
    as (Hn & Ht & _ & Hid & Hc & Hds & _).
  split; [exact Hn|]. split; [exact Ht|].
  split; [exact (proj1 (Hid eq_refl))|]. split; [exact Hc|exact Hds].
Defined.

(** ** Past the type assertions

    No record of the schema passes the type assertions of the four
    operations (see [handler_panics]).  The lemmas of this section tell what
    the code after the assertions does, on stores that hold what the
    assertions ask for. *)

(** Create, when the external call returns an error: the error is reported,
    the record is as it was, the key is released. *)
Lemma Create_past_assertions_failure
    env w d clusterID name type config logsink resp err :
  Get d "cluster_id" = VString clusterID →
  Get d "name" = VString name →
  Get d "type" = VString type →
  Get d "config" = VConfigPtr config →
  let key := lockKey clusterID in
  let opts := {| create_Name := name; create_Type := type; create_Config := config |} in
  let w1 := (respond env _ (Lock key) w).2 in
  (respond env _ (CreateLogsink clusterID opts) w1).1 = (logsink, resp, Some err) →
  let w2 := (respond env _ (CreateLogsink clusterID opts) w1).2 in
  run env (resourceDigitalOceanDatabaseLogsinkCreate d) w =
    ([Lbl (Lock key) tt;
      Lbl (CreateLogsink clusterID opts) (logsink, resp, Some err);
      Lbl (Unlock key) tt],
     Returned (d, Errorf ("Error creating Database Logsink: " +:+ err)),
     (respond env _ (Unlock key) w2).2).
Proof.
  intros Hc Hn Ht Hcfg key opts w1 Hr w2. subst w2 w1 opts key.
  rewrite (Create_unfold d clusterID name type config Hc Hn Ht Hcfg).
  rewrite run_critical by apply Create_body_silent.
  cbv zeta. by rewrite Hr.
Qed.

(** Delete looks only at the error of the external call: there is no
    branch for a response with status 404. *)
Lemma Delete_past_assertions env w d clusterID id resp err :
  Get d "cluster_id" = VString clusterID →
  Get d "id" = VString id →
  let key := lockKey clusterID in
  let w1 := (respond env _ (Lock key) w).2 in
  (respond env _ (DeleteLogsink clusterID id) w1).1 = (resp, err) →
  let w2 := (respond env _ (DeleteLogsink clusterID id) w1).2 in
  run env (resourceDigitalOceanDatabaseLogsinkDelete d) w =
    ([Lbl (Lock key) tt;
      Lbl (DeleteLogsink clusterID id) (resp, err);
      Lbl (Unlock key) tt],
     Returned (match err with
               | Some err => (d, Errorf ("Error deleting Database Logsink: " +:+ err))
               | None => (SetId d "", [])
               end),
     (respond env _ (Unlock key) w2).2).
Proof.
  intros Hc Hi key w1 Hr w2. subst w2 w1 key.
  rewrite (Delete_unfold d clusterID id Hc Hi).
  rewrite run_critical by apply Delete_body_silent.
  cbv zeta. rewrite Hr. by destruct err.
Qed.

(** The request of an Update is the expanded config and nothing else. *)
Lemma Update_past_assertions_request env w d clusterID name configList config :
  Get d "cluster_id" = VString clusterID →
  Get d "name" = VString name →
  Get d "config" = VList configList →
  expandLogsinkConfig configList = Ok config →
  let key := lockKey clusterID in
  let opts := {| update_Config := Some config |} in
  let w1 := (respond env _ (Lock key) w).2 in
  trace (run env (resourceDigitalOceanDatabaseLogsinkUpdate d) w) =
    [Lbl (Lock key) tt;
     Lbl (UpdateLogsink clusterID name opts)
         (respond env _ (UpdateLogsink clusterID name opts) w1).1;
     Lbl (Unlock key) tt].
Proof.
  intros Hc Hn Hl He key opts w1.
  rewrite (Update_unfold d clusterID name configList config Hc Hn Hl He).
  by rewrite run_critical by apply Update_body_silent.
Qed.

Lemma Read_cases d :
  (∃ p, resourceDigitalOceanDatabaseLogsinkRead d = Panic p) ∨
  (∃ id clusterID,
     Get d "id" = VString id ∧ Get d "cluster_id" = VString clusterID).
Proof.
  unfold resourceDigitalOceanDatabaseLogsinkRead.
  destruct (Get d "id"); try (left; by eexists).
  destruct (Get d "cluster_id"); try (left; by eexists).
  right. by do 2 eexists.
Qed.

Lemma Read_unfold d id clusterID :
  Get d "id" = VString id →
  Get d "cluster_id" = VString clusterID →
  resourceDigitalOceanDatabaseLogsinkRead d =
    (call (GetLogsink clusterID id) ≫= λ '(logsink, resp, err),
       match err with
       | Some err =>
           if isNotFound resp then Ret (SetId d "", [])
           else Ret (d, Errorf ("Error retrieving Database Logsink: " +:+ err))
       | None =>
           '(d, _) ← lift (setDatabaseLogsinkAttributes d logsink);
           Ret (d, [])
       end).
Proof.
  intros Hi Hc. unfold resourceDigitalOceanDatabaseLogsinkRead. by rewrite Hi, Hc.
Qed.

(** Read, when the Get returns an error: with a response of status 404 the
    identifier is cleared and nothing reported; otherwise the error is
    reported and the record is as it was. *)
Lemma Read_past_assertions_error env w d id clusterID logsink resp err :
  Get d "id" = VString id →
  Get d "cluster_id" = VString clusterID →
  (respond env _ (GetLogsink clusterID id) w).1 = (logsink, resp, Some err) →
  run env (resourceDigitalOceanDatabaseLogsinkRead d) w =
    ([Lbl (GetLogsink clusterID id) (logsink, resp, Some err)],
     Returned (if isNotFound resp then (SetId d "", [])
               else (d, Errorf ("Error retrieving Database Logsink: " +:+ err))),
     (respond env _ (GetLogsink clusterID id) w).2).
Proof.
  intros Hi Hc Hr. rewrite (Read_unfold d id clusterID Hi Hc).
  rewrite run_call_bind. cbv zeta. rewrite Hr.
  by destruct (isNotFound resp).
Qed.

(** ** The lock discipline of the operations *)

Lemma disciplined_silent {A} final (p : prog A) :
  silent p → disciplined final final p.
Proof. by destruct p. Qed.

Lemma disciplined_defer {A} key (body : prog A) held :
  disciplined (Some key) held body →
  disciplined None held (defer (Unlock key) body).
Proof.
  revert held. induction body as [a|p|R e k IH]; intros held; simpl.
  - intros ->. by split.
  - intros ->. by split.
  - intros [He Hk]. split; [done|]. intros r. by apply IH.
Qed.

Lemma allowed_mutates {R} (e : event R) clusterID :
  mutates e = Some clusterID → allowed (Some (lockKey clusterID)) e.
Proof. destruct e; simpl; intros H; by simplify_eq. Qed.

Lemma after_mutates {R} (e : event R) clusterID held :
  mutates e = Some clusterID → after held e = held.
Proof. by destruct e. Qed.

Lemma disciplined_critical {A R} (e : event R) (f : R → prog A) clusterID :
  mutates e = Some clusterID →
  (∀ r, silent (f r)) →
  disciplined None None
    (call (Lock (lockKey clusterID)) ≫= λ _,
     defer (Unlock (lockKey clusterID)) (call e ≫= f)).
Proof.
  intros He Hf. split; [done|]. intros [].
  change (disciplined None (Some (lockKey clusterID))
            (defer (Unlock (lockKey clusterID)) (call e ≫= f))).
  apply disciplined_defer.
  change (allowed (Some (lockKey clusterID)) e ∧
          ∀ r, disciplined (Some (lockKey clusterID))
                 (after (Some (lockKey clusterID)) e) (f r)).
  split; [by apply allowed_mutates|].
  intros r. rewrite (after_mutates e clusterID _ He).
  apply disciplined_silent, Hf.
Qed.

Lemma Read_lock_free d : lock_free (resourceDigitalOceanDatabaseLogsinkRead d).
Proof.
  destruct (Read_cases d) as [[p ->]|(i & c & Hi & Hc)]; [done|].
  rewrite (Read_unfold d i c Hi Hc). split; [done|].
  intros [[logsink resp] [err|]]; simpl.
  - by destruct (isNotFound resp).
  - by destruct (setDatabaseLogsinkAttributes d logsink) as [[]|].
Qed.

Lemma handler_disciplined op d : disciplined None None (handler op d).
Proof.
  destruct op; simpl.
  - destruct (Create_cases d) as [[p ->]|(c & n & t & cfg & Hc & Hn & Ht & Hcfg)];
      [done|].
    rewrite (Create_unfold d c n t cfg Hc Hn Ht Hcfg).
    by apply disciplined_critical; [|apply Create_body_silent].
  - destruct (Read_cases d) as [[p ->]|(i & c & Hi & Hc)]; [done|].
    rewrite (Read_unfold d i c Hi Hc). split; [done|].
    intros [[logsink resp] [err|]]; simpl.
    + by destruct (isNotFound resp).
    + by destruct (setDatabaseLogsinkAttributes d logsink) as [[]|].
  - destruct (Update_cases d) as [[p ->]|(c & n & l & cfg & Hc & Hn & Hl & He)];
      [done|].
    rewrite (Update_unfold d c n l cfg Hc Hn Hl He).
    by apply disciplined_critical; [|apply Update_body_silent].
  - destruct (Delete_cases d) as [[p ->]|(c & i & Hc & Hi)]; [done|].
    rewrite (Delete_unfold d c i Hc Hi).
    by apply disciplined_critical; [|apply Delete_body_silent].
Qed.

(** ** The lock table *)

Lemma holder_of_lock_enter key key' (tbl : gmap string LockEntry) :
  holder_of (lock_enter key tbl) key' = holder_of tbl key'.
Proof.
  unfold holder_of, lock_enter.
  destruct (tbl !! key) as [en|] eqn:E.
  - destruct (decide (key = key')) as [<-|Hne].
    + rewrite lookup_insert_eq, E. done.
    + by rewrite lookup_insert_ne.
  - destruct (decide (key = key')) as [<-|Hne].
    + rewrite lookup_insert_eq, E. done.
    + by rewrite lookup_insert_ne.
Qed.

Lemma lock_acquire_Some t key (tbl tbl' : gmap string LockEntry) :
  lock_acquire t key tbl = Some tbl' →
  holder_of tbl key = None ∧
  holder_of tbl' key = Some t ∧
  ∀ key', key' ≠ key → holder_of tbl' key' = holder_of tbl key'.
Proof.
  unfold lock_acquire, holder_of.
  destruct (tbl !! key) as [en|] eqn:E; [|done].
  destruct (holder en) eqn:Eh; [done|].
  intros [= <-]. rewrite lookup_insert_eq. simpl. rewrite Eh.
  repeat split. intros key' Hne. by rewrite lookup_insert_ne.
Qed.

Lemma unlock_Some t key (tbl tbl' : gmap string LockEntry) :
  unlock t key tbl = Some tbl' →
  holder_of tbl key = Some t ∧
  holder_of tbl' key = None ∧
  ∀ key', key' ≠ key → holder_of tbl' key' = holder_of tbl key'.
Proof.
  unfold unlock, holder_of.
  destruct (tbl !! key) as [en|] eqn:E; [|done].
  case_bool_decide as Hh; [|done]. simpl.
  destruct (refcount en) as [|[|n]]; intros [= <-].
  - rewrite lookup_delete_eq. repeat split; [done|].
    intros key' Hne. by rewrite lookup_delete_ne.
  - rewrite lookup_delete_eq. repeat split; [done|].
    intros key' Hne. by rewrite lookup_delete_ne.
  - rewrite lookup_insert_eq. repeat split; [done|].
    intros key' Hne. by rewrite lookup_insert_ne.
Qed.

Lemma unlock_by_holder t key (tbl : gmap string LockEntry) :
  holder_of tbl key = Some t → is_Some (unlock t key tbl).
Proof.
  unfold unlock, holder_of.
  destruct (tbl !! key) as [en|]; [|done]. simpl. intros ->.
  rewrite bool_decide_eq_true_2 by done.
  by destruct (refcount en) as [|[|n]].
Qed.

(** ** Concurrent callers keep the invariant *)

Lemma after_remote {R} (e : event R) held : is_remote e = true → after held e = held.
Proof. by destruct e. Qed.

Lemma allowed_mutates_held {R} (e : event R) clusterID held :
  mutates e = Some clusterID → allowed held e → held = Some (lockKey clusterID).
Proof. destruct e; simpl; intros H; by simplify_eq. Qed.

Lemma lock_invariant_start reqs : lock_invariant (start reqs).
Proof.
  intros t th Ht. simpl in Ht. rewrite list_lookup_fmap in Ht.
  destruct (reqs !! t) as [[op d]|]; [|done]. simpl in Ht. injection Ht as <-.
  exists None. split; [apply handler_disciplined|done].
Qed.

Lemma lock_invariant_update {A} (σ : system A) t th th_new tbl held_new :
  lock_invariant σ →
  threads σ !! t = Some th →
  thread_ok held_new th_new →
  (∀ key, held_new = Some key → holder_of tbl key = Some t) →
  (∀ t' key, t' ≠ t → holder_of (table σ) key = Some t' →
             holder_of tbl key = Some t') →
  lock_invariant {| threads := <[t := th_new]> (threads σ); table := tbl |}.
Proof.
  intros Hinv Ht Hok Hheld Hothers t' th' Ht'. simpl in *.
  destruct (decide (t = t')) as [<-|Hne].
  - rewrite list_lookup_insert_eq in Ht' by (by eapply lookup_lt_Some).
    injection Ht' as <-. by exists held_new.
  - rewrite list_lookup_insert_ne in Ht' by done.
    destruct (Hinv t' th' Ht') as (held & Hok' & Hheld').
    exists held. split; [done|]. intros key Hk. apply Hothers; [done|by apply Hheld'].
Qed.

Lemma lock_invariant_step {A} (σ σ' : system A) :
  lock_invariant σ → step σ σ' → lock_invariant σ'.
Proof.
  intros Hinv Hstep.
  destruct Hstep as [t key k Ht|t key k tbl Ht Hacq|t key k tbl Ht Hun
                    |t key k Ht Hun|t R e k Ht He|t R e k r Ht];
    destruct (Hinv t _ Ht) as (held & Hok & Hheld); simpl in Hok.
  - destruct Hok as [-> Hk].
    apply (lock_invariant_update σ t _ _ _ None Hinv Ht); [by split|done|].
    intros t' key' _ H. by rewrite holder_of_lock_enter.
  - destruct Hok as [-> Hk].
    destruct (lock_acquire_Some _ _ _ _ Hacq) as (Hfree & Hmine & Hrest).
    apply (lock_invariant_update σ t _ _ _ (Some key) Hinv Ht); [done| |].
    + by intros key' [= <-].
    + intros t' key' _ H. rewrite Hrest; [done|]. intros ->. congruence.
  - destruct Hok as [-> Hk].
    destruct (unlock_Some _ _ _ _ Hun) as (Hmine & Hfree & Hrest).
    apply (lock_invariant_update σ t _ _ _ None Hinv Ht); [apply Hk|done|].
    intros t' key' Hne H. rewrite Hrest; [done|]. intros ->. congruence.
  - by apply (lock_invariant_update σ t _ _ _ None Hinv Ht).
  - destruct Hok as [Hal Hk].
    apply (lock_invariant_update σ t _ _ _ held Hinv Ht); [|done|done].
    split; [done|]. split; [done|]. intros r.
    specialize (Hk r). by rewrite (after_remote e held He) in Hk.
  - destruct Hok as (He & Hal & Hk).
    apply (lock_invariant_update σ t _ _ _ held Hinv Ht); [apply Hk|done|done].
Qed.

Lemma lock_invariant_reachable reqs σ :
  reachable (start reqs) σ → lock_invariant σ.
Proof.
  induction 1 as [|σ σ' _ IH Hstep]; [apply lock_invariant_start|].
  by apply (lock_invariant_step σ σ').
Qed.

(** Two callers waiting for the answer of a changing call under the same
    key are the same caller. *)
Lemma lock_invariant_exclusive {A} (σ : system A) key t1 t2 th1 th2 :
  lock_invariant σ →
  threads σ !! t1 = Some th1 → threads σ !! t2 = Some th2 →
  changing key th1 = true → changing key th2 = true →
  t1 = t2.
Proof.
  intros Hinv H1 H2 Hc1 Hc2.
  assert (∀ t th, threads σ !! t = Some th → changing key th = true →
                  holder_of (table σ) key = Some t) as Hholder.
  { intros t th Ht Hc. destruct (Hinv t th Ht) as (held & Hok & Hheld).
    destruct th as [p|key' k|R e k|]; try done. simpl in Hc, Hok.
    destruct (mutates e) as [c|] eqn:Hm; [|done].
    apply bool_decide_eq_true_1 in Hc as <-.
    destruct Hok as (_ & Hal & _).
    apply Hheld. by apply (allowed_mutates_held e). }
  pose proof (Hholder t1 th1 H1 Hc1) as E1.
  pose proof (Hholder t2 th2 H2 Hc2) as E2.
  congruence.
Qed.

Lemma filter_at_most_one {A} (P : A → Prop) `{∀ x, Decision (P x)} (l : list A) :
  (∀ i j x y, l !! i = Some x → l !! j = Some y → P x → P y → i = j) →
  (length (filter P l) ≤ 1)%nat.
Proof.
  induction l as [|a l IH]; intros Huniq; [simpl; lia|].
  rewrite filter_cons. destruct (decide (P a)) as [Ha|Ha].
  - assert (filter P l = []) as ->; [|simpl; lia].
    destruct (filter P l) as [|b bs] eqn:E; [done|].
    assert (b ∈ filter P l) as Hb by (rewrite E; left).
    apply list_elem_of_filter in Hb as [HPb Hbl].
    apply list_elem_of_lookup in Hbl as [j Hj].
    by specialize (Huniq 0%nat (S j) a b eq_refl Hj Ha HPb).
  - apply IH. intros i j x y Hi Hj Hx Hy.
    by specialize (Huniq (S i) (S j) x y Hi Hj Hx Hy) as [= ->].
Qed.

(** ** The scheduler takes steps of the semantics *)

Lemma fire_step {A} t (σ σ' : system A) : fire t σ = Some σ' → step σ σ'.
Proof.
  unfold fire. destruct (threads σ !! t) as [[p|key k|R e k|]|] eqn:Ht; try done.
  - destruct p as [a|p|R e k]; try done.
    destruct (is_remote e) eqn:He.
    + intros [= <-]. by apply step_issue.
    + destruct e as [key|key| | | |]; try done.
      * intros [= <-]. by apply step_lock_enter.
      * destruct (unlock t key (table σ)) as [tbl|] eqn:Hun; intros [= <-].
        -- by apply (step_unlock σ t key k tbl).
        -- by apply (step_unlock_error σ t key k).
  - destruct (lock_acquire t key (table σ)) as [tbl|] eqn:Hacq; [|done].
    intros [= <-]. by apply (step_lock_acquire σ t key k tbl).
Qed.

Lemma fires_reachable {A} ts (σ0 σ σ' : system A) :
  reachable σ0 σ → fires ts σ = Some σ' → reachable σ0 σ'.
Proof.
  revert σ. induction ts as [|t ts IH]; intros σ Hreach; simpl.
  - by intros [= <-].
  - destruct (fire t σ) as [σ1|] eqn:Hf; [|done]. simpl.
    apply IH. apply (reach_step σ0 σ σ1 Hreach). by apply (fire_step t).
Qed.

(** ** Mutual exclusion per cluster *)

(** C1: Create, Update and Delete issue their changing call on a cluster
    only while they hold the key "digitalocean_database_cluster/<clusterID>/log_sinks"
    of that cluster, which they took before and release after; Read never
    touches the lock table.  Hence, with the lock table of the
    specification and any number of concurrent callers started on any
    records, at no time are two changing calls in flight under the same
    key, whatever the scheduling and the answers of the remote service. *)
Theorem mutations_serialized_per_cluster :
  (∀ op d, disciplined None None (handler op d)) ∧
  (∀ d, lock_free (resourceDigitalOceanDatabaseLogsinkRead d)) ∧
  (∀ reqs σ key, reachable (start reqs) σ → (in_flight key σ ≤ 1)%nat).
Proof.
  split; [apply handler_disciplined|]. split; [apply Read_lock_free|].
  intros reqs σ key Hreach. unfold in_flight.
  apply filter_at_most_one. intros i j x y Hi Hj Hx Hy.
  by apply (lock_invariant_exclusive σ key i j x y
              (lock_invariant_reachable reqs σ Hreach)).
Qed.

Lemma mutations_serialized_per_cluster_witness :
  (in_flight "digitalocean_database_cluster/cluster123/log_sinks" contended ≤ 1)%nat.
Proof.
  exact (proj2 (proj2 mutations_serialized_per_cluster) contendingRequests contended
           "digitalocean_database_cluster/cluster123/log_sinks"
           (fires_reachable [0; 0; 0; 1]%nat _ _ _
              (reach_here (start contendingRequests)) eq_refl)).
Defined.

(** In the state [contended] the Create of caller 0 is in flight, caller 1
    waits for the same key and cannot get it. *)
Lemma contended_second_caller_blocked :
  in_flight "digitalocean_database_cluster/cluster123/log_sinks" contended = 1%nat ∧
  holder_of (table contended) "digitalocean_database_cluster/cluster123/log_sinks"
    = Some 0%nat ∧
  refcount <$> table contended !! "digitalocean_database_cluster/cluster123/log_sinks"
    = Some 2%nat ∧
  fire 1 contended = None.
Proof. repeat split; vm_compute; reflexivity. Qed.

(** ** Keys and identifiers *)

Lemma length_append (a b : string) :
  String.length (a +:+ b) = (String.length a + String.length b)%nat.
Proof. induction a as [|c a IH]; simpl; [done|]. by rewrite IH. Qed.

Lemma append_inj_suffix (a b s : string) : a +:+ s = b +:+ s → a = b.
Proof.
  revert b. induction a as [|c a IH]; intros b H.
  - apply (f_equal String.length) in H.
    rewrite !length_append in H.
    destruct b; [done|]. simpl in H. lia.
  - destruct b as [|c' b].
    + apply (f_equal String.length) in H.
      rewrite !length_append in H. simpl in H. lia.
    + simpl in H. injection H as -> H. f_equal. by apply IH.
Qed.

(** Two clusters have the same lock key exactly when they are the same
    cluster: operations on different clusters never share a key. *)
Theorem lockKey_inj c1 c2 : lockKey c1 = lockKey c2 ↔ c1 = c2.
Proof.
  split; [|by intros ->].
  unfold lockKey. intros H.
  apply (inj (String.app "digitalocean_database_cluster/")) in H.
  by apply append_inj_suffix in H.
Qed.

(** The local identifier determines the cluster and the name, as long as
    cluster identifiers contain no slash. *)
Theorem makeDatabaseLogsinkID_inj c1 n1 c2 n2 :
  Contains c1 slash = false →
  Contains c2 slash = false →
  makeDatabaseLogsinkID c1 n1 = makeDatabaseLogsinkID c2 n2 →
  c1 = c2 ∧ n1 = n2.
Proof.
  unfold makeDatabaseLogsinkID. revert c2.
  induction c1 as [|x c1 IH]; intros c2 H1 H2 H.
  - destruct c2 as [|y c2].
    + split; [done|]. by apply (inj (String.app "/logsink/")) in H.
    + simpl in H, H2. injection H as <- _. done.
  - destruct c2 as [|y c2].
    + simpl in H, H1. injection H as -> _. done.
    + simpl in H, H1, H2. injection H as -> H.
      destruct (Ascii.eqb y slash); [done|].
      destruct (IH c2 H1 H2 H) as [-> ->]. done.
Qed.

Lemma makeDatabaseLogsinkID_inj_witness :
  "cluster123" = "cluster123" ∧ "mysink" = "mysink".
Proof.
  exact (makeDatabaseLogsinkID_inj "cluster123" "mysink" "cluster123" "mysink"
           eq_refl eq_refl eq_refl).
Defined.

(** Without the condition the identifier is ambiguous. *)
Lemma makeDatabaseLogsinkID_ambiguous :
  makeDatabaseLogsinkID "a/logsink/b" "c" = makeDatabaseLogsinkID "a" "b/logsink/c".
Proof. reflexivity. Qed.

(** Import never panics: the comma test guards both slice accesses. *)
Theorem Import_never_panics d :
  ∃ ds err, resourceDigitalOceanDatabaseLogsinkImport d = Ok (ds, err) ∧
            (length ds ≤ 1)%nat ∧
            (ds = [] ↔ err = Some importFormatError) ∧
            (ds ≠ [] ↔ err = None).
Proof.
  destruct (Contains (Id d) comma) eqn:E.
  - destruct (Contains_split_first _ _ E) as (p & rest & Hp & Hid).
    rewrite (Import_comma d p rest Hp Hid).
    eexists _, _. split; [reflexivity|]. simpl. repeat split; try done; lia.
  - rewrite (Import_no_comma d E).
    eexists _, _. split; [reflexivity|]. simpl. repeat split; try done; lia.
Qed.

(** ** More on the attributes and the config *)

Lemma attrs_eq d1 d2 : Id d1 = Id d2 → attrs d1 = attrs d2 → d1 = d2.
Proof. destruct d1, d2. simpl. by intros -> ->. Qed.

Lemma Set_name_type_twice d n t :
  let d1 := (Set_ (Set_ d "name" (VString n)).1 "type" (VString t)).1 in
  (Set_ (Set_ d1 "name" (VString n)).1 "type" (VString t)).1 = d1.
Proof.
  unfold Set_. simpl. apply attrs_eq; [done|]. simpl.
  apply map_eq. intros k. rewrite !lookup_insert.
  repeat case_decide; congruence.
Qed.

(** Storing the same remote sink a second time changes nothing: the record
    and the diagnostics of the second call are those of the first. *)
Theorem setDatabaseLogsinkAttributes_idempotent d sink d' ds :
  setDatabaseLogsinkAttributes d (Some sink) = Ok (d', ds) →
  setDatabaseLogsinkAttributes d' (Some sink) = Ok (d', ds).
Proof.
  intros H. pose proof H as H2.
  apply setDatabaseLogsinkAttributes_result in H2 as [-> ->].
  unfold setDatabaseLogsinkAttributes in *. cbn [deref mbind result_bind] in *.
  rewrite !Set_id_refused in *. cbn [fst] in *.
  rewrite !GetOk_Set_other in * by done.
  rewrite (Set_name_type_twice d (sink_Name sink) (sink_Type sink)).
  destruct (GetOk d "config").2.
  - destruct (flattenLogsinkConfig (sink_Config sink)) as [flat|p];
      cbn [mbind result_bind] in *; [|discriminate].
    unfold maps_value. by rewrite Set_config_list_refused.
  - done.
Qed.

Lemma setDatabaseLogsinkAttributes_idempotent_witness :
  setDatabaseLogsinkAttributes
    (Set_ (Set_ staleRecord "name" (VString "mysink")).1 "type" (VString "rsyslog")).1
    (Some exampleSink) =
  Ok ((Set_ (Set_ staleRecord "name" (VString "mysink")).1 "type" (VString "rsyslog")).1,
      Errorf "[DEBUG] Error setting longsink config - error: config: must be a map").
Proof.
  exact (setDatabaseLogsinkAttributes_idempotent staleRecord exampleSink _ _ eq_refl).
Defined.

(** Expansion succeeds exactly when the first element of the list is a
    map in which each of the thirteen entries is present with the type of
    its field; the result then holds those entries.  Further elements of
    the list and further entries of the map play no part. *)
Theorem expand_succeeds_iff l cfg :
  expandLogsinkConfig l = Ok cfg ↔
  ∃ m rest, l = VMap m :: rest ∧
    map_index m "url" = VString (URL cfg) ∧
    map_index m "index_prefix" = VString (IndexPrefix cfg) ∧
    map_index m "index_days_max" = VInt (IndexDaysMax cfg) ∧
    map_index m "timeout" = VFloat32 (Timeout cfg) ∧
    map_index m "server" = VString (Server cfg) ∧
    map_index m "port" = VInt (Port cfg) ∧
    map_index m "tls" = VBool (TLS cfg) ∧
    map_index m "format" = VString (Format cfg) ∧
    map_index m "logline" = VString (Logline cfg) ∧
    map_index m "sd" = VString (SD cfg) ∧
    map_index m "ca" = VString (CA cfg) ∧
    map_index m "key" = VString (Key cfg) ∧
    map_index m "cert" = VString (Cert cfg).
Proof.
  split; [apply expand_reads_every_field|].
  intros (m & rest & -> & H1 & H2 & H3 & H4 & H5 & H6 & H7 & H8 & H9 & H10
          & H11 & H12 & H13).
  rewrite expand_of_map.
  rewrite H1, H2, H3, H4, H5, H6, H7, H8, H9, H10, H11, H12, H13.
  by destruct cfg.
Qed.

Ltac panic_entry E m k :=
  destruct (map_index m k) eqn:?;
  cbn [mbind result_bind assert_string assert_int assert_float32 assert_bool] in E;
  try (by injection E as <-).

(** The only panic of an expansion whose first element is a map is a
    failed type assertion. *)
Lemma expand_map_panic m rest p :
  expandLogsinkConfig (VMap m :: rest) = Panicked p → p = InterfaceConversion.
Proof.
  intros E. rewrite expand_of_map in E.
  panic_entry E m "url". panic_entry E m "index_prefix".
  panic_entry E m "index_days_max". panic_entry E m "timeout".
  panic_entry E m "server". panic_entry E m "port". panic_entry E m "tls".
  panic_entry E m "format". panic_entry E m "logline". panic_entry E m "sd".
  panic_entry E m "ca". panic_entry E m "key". panic_entry E m "cert".
  discriminate E.
Qed.

(** An entry that is missing makes the expansion panic, like an entry of
    another type. *)
Lemma expand_missing_entry_panics m rest key :
  key ∈ ["url"; "index_prefix"; "index_days_max"; "timeout"; "server"; "port";
         "tls"; "format"; "logline"; "sd"; "ca"; "key"; "cert"] →
  m !! key = None →
  expandLogsinkConfig (VMap m :: rest) = Panicked InterfaceConversion.
Proof.
  intros Hin Hm.
  destruct (expandLogsinkConfig (VMap m :: rest)) as [cfg|p] eqn:E.
  - apply expand_reads_every_field in E
      as (m' & rest' & [= <- <-] & H1 & H2 & H3 & H4 & H5 & H6 & H7 & H8 & H9
          & H10 & H11 & H12 & H13).
    unfold map_index in *.
    repeat (apply elem_of_cons in Hin as [->|Hin];
            [rewrite Hm in *; discriminate|]).
    by apply elem_of_nil in Hin.
  - f_equal. by apply (expand_map_panic m rest).
Qed.

(** In the config of a record of the schema no entry is a [float32]: the
    SDK has no such primitive. *)
Lemma schema_record_timeout d m f :
  schema_record d = true →
  Get d "config" = VMap m →
  m !! "timeout" ≠ Some (VFloat32 f).
Proof.
  intros H. unfold Get.
  destruct (attrs d !! "config") as [v|] eqn:E.
  - intros ->. destruct (schema_record_lookup d "config" _ H E) as (s & Hs & Ht).
    vm_compute in Hs. injection Hs as <-.
    unfold has_type in Ht. cbn [schema_Type] in Ht.
    rewrite forallb_forall in Ht. intros Hf.
    assert (In ("timeout", VFloat32 f) (map_to_list m)) as Hin.
    { by apply list_elem_of_In, elem_of_map_to_list. }
    apply Ht in Hin. discriminate Hin.
  - intros [= <-]. by rewrite lookup_empty.
Qed.

(** The config of a record of the schema cannot be expanded, not even
    wrapped in a list as [expandLogsinkConfig] reads it: the expansion
    asserts the timeout to be a [float32], a type the SDK never hands out
    (a float of a schema is a [float64]), and an entry left out of the
    block fails its assertion as well.  The expansion panics on a type
    assertion for every such config. *)
Theorem expand_schema_config_panics d rest :
  schema_record d = true →
  ∃ m, Get d "config" = VMap m ∧
       expandLogsinkConfig (Get d "config" :: rest) = Panicked InterfaceConversion.
Proof.
  intros H. destruct (schema_record_config d H) as [m Hm].
  exists m. split; [done|]. rewrite Hm.
  destruct (expandLogsinkConfig (VMap m :: rest)) as [cfg|p] eqn:E.
  - apply expand_reads_every_field in E
      as (m' & rest' & [= <- <-] & _ & _ & _ & Ht & _).
    unfold map_index in Ht.
    destruct (m !! "timeout") as [v|] eqn:Hv; [|discriminate Ht].
    simpl in Ht. subst v.
    by destruct (schema_record_timeout d m (Timeout cfg) H Hm).
  - f_equal. by apply (expand_map_panic m rest).
Qed.

Lemma expand_schema_config_panics_witness :
  ∃ m, Get fullRecord "config" = VMap m ∧
       expandLogsinkConfig [Get fullRecord "config"] = Panicked InterfaceConversion.
Proof. exact (expand_schema_config_panics fullRecord [] eq_refl). Defined.


Lemma expand_flatten_with_url_key_witness :
  expandLogsinkConfig
    [VMap (<["url" := VString ""]>
       (<["cert":=VString ""]> (<["key":=VString ""]>
        (<["ca":=VString ""]> (<["sd":=VString ""]> (<["logline":=VString ""]>
        (<["format":=VString "rfc5424"]> (<["tls":=VBool true]>
        (<["port":=VInt 443]> (<["server":=VString "localhost"]>
        (<["timeout":=VFloat32 (Float32 0)]> (<["index_days_max":=VInt 0]>
        (<["index_prefix":=VString ""]> (<["urls":=VString ""]> ∅))))))))))))))]
  = Ok exampleConfig.
Proof. exact (expand_flatten_with_url_key exampleConfig _ eq_refl). Defined.

(** ** Unlock never fails *)

(** With any number of concurrent callers, a caller that is about to
    unlock a key is the holder of that key, so its [Unlock] succeeds; no
    caller ever ends in the failed state of an [Unlock] without the key. *)
Theorem unlock_never_fails reqs σ :
  reachable (start reqs) σ →
  (∀ t key k, threads σ !! t = Some (Running (Vis (Unlock key) k)) →
              holder_of (table σ) key = Some t ∧ is_Some (unlock t key (table σ))) ∧
  (∀ t, threads σ !! t ≠ Some Failed).
Proof.
  intros Hreach.
  assert (∀ σ, reachable (start reqs) σ →
            ∀ t key k, threads σ !! t = Some (Running (Vis (Unlock key) k)) →
                       holder_of (table σ) key = Some t) as Hholds.
  { intros σ1 H1 t key k Ht.
    destruct (lock_invariant_reachable reqs σ1 H1 t _ Ht) as (held & Hok & Hheld).
    destruct Hok as [Hal _]. simpl in Hal. by apply Hheld. }
  split.
  - intros t key k Ht. split; [by eapply Hholds|].
    apply unlock_by_holder. by eapply Hholds.
  - induction Hreach as [|σ σ' Hreach IH Hstep].
    + intros t Ht. simpl in Ht. rewrite list_lookup_fmap in Ht.
      by destruct (reqs !! t).
    + assert (∀ t th, th ≠ Failed → ∀ t',
                <[t := th]> (threads σ) !! t' ≠ Some Failed) as Hupd.
      { intros t th Hth t' Ht'.
        destruct (decide (t = t')) as [<-|Hne].
        - destruct (decide (t < length (threads σ))%nat) as [Hlt|Hge].
          + rewrite list_lookup_insert_eq in Ht' by done. by simplify_eq.
          + rewrite list_insert_ge in Ht' by lia. by apply (IH t).
        - rewrite list_lookup_insert_ne in Ht' by done. by apply (IH t'). }
      destruct Hstep as [t key k Ht|t key k tbl Ht Hacq|t key k tbl Ht Hun
                        |t key k Ht Hun|t R e k Ht He|t R e k r Ht]; simpl;
        try (by apply Hupd).
      pose proof (Hholds σ Hreach t key k Ht) as Hh.
      apply unlock_by_holder in Hh as [tbl Htbl]. congruence.
Qed.

Lemma complete_step {A} env t (σ σ' : system A) w w' :
  complete env t σ w = Some (σ', w') → step σ σ'.
Proof.
  unfold complete.
  destruct (threads σ !! t) as [[p|key k|R e k|]|] eqn:Ht; try discriminate.
  intros [= <- _]. by apply (step_complete σ t R e k).
Qed.

Lemma releasing_reachable : reachable (start contendingRequests) releasing.
Proof.
  apply (reach_step _ contended).
  - exact (fires_reachable [0; 0; 0; 1]%nat _ _ _
             (reach_here (start contendingRequests)) eq_refl).
  - by eapply (complete_step remote 0%nat contended releasing None).
Qed.

(** In the state [releasing] caller 0 is about to run its deferred
    [Unlock]; it holds the key and the [Unlock] succeeds. *)
Lemma unlock_never_fails_witness :
  ∃ k,
    threads releasing !! 0%nat =
      Some (Running (Vis (Unlock "digitalocean_database_cluster/cluster123/log_sinks") k)) ∧
    holder_of (table releasing) "digitalocean_database_cluster/cluster123/log_sinks"
      = Some 0%nat ∧
    is_Some (unlock 0 "digitalocean_database_cluster/cluster123/log_sinks"
               (table releasing)).
Proof.
  eexists. split; [reflexivity|].
  exact (proj1 (unlock_never_fails contendingRequests releasing releasing_reachable)
           0%nat _ _ eq_refl).
Defined.

(** ** The acceptance checks *)

Lemma run_Destroy_cons get rs rest :
  dangling rs = false →
  result_of (run (oracle get) (testAccCheckDigitalOceanDatabaseLogsinkDestroy (rs :: rest)) tt) =
    if remains get rs then Returned (Some sinkStillExists)
    else result_of (run (oracle get) (testAccCheckDigitalOceanDatabaseLogsinkDestroy rest) tt).
Proof.
  unfold dangling, remains. simpl.
  destruct (String.eqb (rs_Type rs) "digitalocean_database_log_sink"); simpl; [|done].
  destruct (rs_Primary rs) as [primary|]; [|done]. intros _. simpl.
  destruct (get (attr (inst_Attributes primary) "cluster_id")
                (attr (inst_Attributes primary) "id")) as [[logsink resp] [err|]]; simpl.
  - unfold result_of.
    by destruct (run (oracle get) (testAccCheckDigitalOceanDatabaseLogsinkDestroy rest) tt)
      as [[tr out] w].
  - done.
Qed.

Lemma Destroy_result get l :
  existsb dangling l = false →
  result_of (run (oracle get) (testAccCheckDigitalOceanDatabaseLogsinkDestroy l) tt) =
    Returned (if existsb (remains get) l then Some sinkStillExists else None).
Proof.
  induction l as [|rs rest IH]; [done|].
  simpl existsb. intros [Hd Hrest]%orb_false_iff.
  rewrite (run_Destroy_cons get rs rest Hd).
  destruct (remains get rs); [done|]. simpl. by apply IH.
Qed.

Lemma Destroy_lock_free l :
  lock_free (testAccCheckDigitalOceanDatabaseLogsinkDestroy l).
Proof.
  induction l as [|rs rest IH]; [done|]. simpl.
  destruct (String.eqb (rs_Type rs) "digitalocean_database_log_sink"); simpl; [|done].
  destruct (rs_Primary rs) as [primary|]; [|done]. simpl.
  split; [done|]. by intros [[logsink resp] [err|]].
Qed.

(** The destroy check never touches the lock table.  Against a remote
    service whose answers depend only on what is asked, and on a state in
    which every log sink has its primary instance, it reports "Database
    Logsink still exists" exactly when some resource of type
    "digitalocean_database_log_sink" can still be fetched; resources of
    other types are skipped; and the verdict does not depend on the order
    in which the resources are visited. *)
Theorem Destroy_fails_iff_sink_remains get l :
  existsb dangling l = false →
  lock_free (testAccCheckDigitalOceanDatabaseLogsinkDestroy l) ∧
  result_of (run (oracle get) (testAccCheckDigitalOceanDatabaseLogsinkDestroy l) tt) =
    Returned (if existsb (remains get) l then Some sinkStillExists else None) ∧
  ∀ l', l ≡ₚ l' →
    result_of (run (oracle get) (testAccCheckDigitalOceanDatabaseLogsinkDestroy l') tt) =
    result_of (run (oracle get) (testAccCheckDigitalOceanDatabaseLogsinkDestroy l) tt).
Proof.
  intros Hd. split; [apply Destroy_lock_free|]. split; [by apply Destroy_result|].
  intros l' Hp.
  assert (∀ f, existsb f l' = existsb f l) as Hex.
  { intros f. apply eq_true_iff_eq. rewrite !existsb_exists.
    split; intros (x & Hx & Hfx); exists x; (split; [|done]).
    - by apply (Permutation_in x (symmetry Hp)).
    - by apply (Permutation_in x Hp). }
  rewrite !Destroy_result by (by rewrite ?Hex). by rewrite Hex.
Qed.

Lemma Destroy_fails_iff_sink_remains_witness :
  lock_free (testAccCheckDigitalOceanDatabaseLogsinkDestroy exampleState) ∧
  result_of (run (oracle goneEverywhere)
               (testAccCheckDigitalOceanDatabaseLogsinkDestroy exampleState) tt) =
    Returned None ∧
  ∀ l', exampleState ≡ₚ l' →
    result_of (run (oracle goneEverywhere)
                 (testAccCheckDigitalOceanDatabaseLogsinkDestroy l') tt) =
    result_of (run (oracle goneEverywhere)
                 (testAccCheckDigitalOceanDatabaseLogsinkDestroy exampleState) tt).
Proof. exact (Destroy_fails_iff_sink_remains goneEverywhere exampleState eq_refl). Defined.

(** The exists check succeeds only for a resource that is in the state
    with a non-empty identifier and for which the one Get it issues, by
    cluster and name, returned a sink of that very name; it then hands
    that sink out.  Whenever it reports an error it leaves the caller's
    sink untouched. *)
Theorem Exists_success_means_found env w n out resources :
  (∀ found,
     result_of (run env (testAccCheckDigitalOceanDatabaseLogsinkExists n out resources) w)
       = Returned (found, None) →
     ∃ rs primary resp,
       resources !! n = Some rs ∧ rs_Primary rs = Some primary ∧
       inst_ID primary ≠ "" ∧
       sink_Name found = attr (inst_Attributes primary) "name" ∧
       trace (run env (testAccCheckDigitalOceanDatabaseLogsinkExists n out resources) w) =
         [Lbl (GetLogsink (attr (inst_Attributes primary) "cluster_id")
                          (attr (inst_Attributes primary) "name"))
              (Some found, resp, None)]) ∧
  (∀ o e,
     result_of (run env (testAccCheckDigitalOceanDatabaseLogsinkExists n out resources) w)
       = Returned (o, Some e) →
     o = out).
Proof.
  unfold testAccCheckDigitalOceanDatabaseLogsinkExists, result_of, trace.
  destruct (resources !! n) as [rs|]; simpl;
    [|split; [intros found H; discriminate H|intros o e H; by simplify_eq]].
  destruct (rs_Primary rs) as [primary|] eqn:Hprimary; simpl;
    [|split; [intros found H; discriminate H|intros o e H; discriminate H]].
  destruct (String.eqb (inst_ID primary) "") eqn:Hid; simpl;
    [split; [intros found H; discriminate H|intros o e H; by simplify_eq]|].
  apply String.eqb_neq in Hid.
  destruct (respond env _
              (GetLogsink (attr (inst_Attributes primary) "cluster_id")
                          (attr (inst_Attributes primary) "name")) w)
    as [[[foundDatabaseLogsink resp] [err|]] w1]; simpl;
    [split; [intros found H; discriminate H|intros o e H; by simplify_eq]|].
  destruct foundDatabaseLogsink as [sink|]; simpl;
    [|split; [intros found H; discriminate H|intros o e H; discriminate H]].
  destruct (String.eqb (sink_Name sink) (attr (inst_Attributes primary) "name"))
    eqn:Hname; simpl;
    [|split; [intros found H; discriminate H|intros o e H; by simplify_eq]].
  apply String.eqb_eq in Hname.
  split; [|intros o e H; discriminate H].
  intros found H. simplify_eq. by exists rs, primary, resp.
Qed.

Lemma Exists_success_means_found_witness :
  ∃ rs primary resp,
    exampleResources !! "digitalocean_database_log_sink.foobar_log_sink" = Some rs ∧
    rs_Primary rs = Some primary ∧
    inst_ID primary ≠ "" ∧
    sink_Name exampleSink = attr (inst_Attributes primary) "name" ∧
    trace (run remote
             (testAccCheckDigitalOceanDatabaseLogsinkExists
                "digitalocean_database_log_sink.foobar_log_sink" noSink exampleResources)
             (Some exampleSink)) =
      [Lbl (GetLogsink (attr (inst_Attributes primary) "cluster_id")
                       (attr (inst_Attributes primary) "name"))
           (Some exampleSink, resp, None)].
Proof.
  exact (proj1 (Exists_success_means_found remote (Some exampleSink)
                  "digitalocean_database_log_sink.foobar_log_sink" noSink
                  exampleResources)
           exampleSink eq_refl).
Defined.


(** ** Optional fields *)

(** Every field of the config block is declared optional in the schema,
    yet the expansion needs each of them: a config map without any one of
    the declared fields makes it panic. *)
Theorem optional_fields_are_required configSchema key s :
  schema_lookup ResourceDigitalOceanDatabaseLogsink "config" = Some configSchema →
  (key, s) ∈ schema_Elem configSchema →
  schema_Optional s = true ∧ schema_Required s = false ∧
  ∀ m rest, m !! key = None →
            expandLogsinkConfig (VMap m :: rest) = Panicked InterfaceConversion.
Proof.
  intros [= <-] Hin.
  assert (Forall (λ ks : string * Schema,
                    schema_Optional ks.2 = true ∧ schema_Required ks.2 = false)
            (schema_Elem
               (mkSchema TypeMap true false false
                  [ ("url", optional TypeString);
                    ("index_prefix", optional TypeString);
                    ("index_days_max", optional TypeInt);
                    ("timeout", optional TypeFloat);
                    ("server", optional TypeString);
                    ("port", optional TypeInt);
                    ("tls", optional TypeBool);
                    ("format", optional TypeString);
                    ("logline", optional TypeString);
                    ("sd", optional TypeString);
                    ("ca", optional TypeString);
                    ("key", optional TypeString);
                    ("cert", optional TypeString) ]))) as HF.
  { simpl. repeat constructor. }
  rewrite Forall_forall in HF. destruct (HF _ Hin) as [Ho Hr].
  split; [done|]. split; [done|]. intros m rest Hm.
  apply (expand_missing_entry_panics m rest key); [|done].
  by apply (list_elem_of_fmap_2 fst) in Hin.
Qed.

Lemma optional_fields_are_required_witness :
  schema_Optional (optional TypeString) = true ∧
  schema_Required (optional TypeString) = false ∧
  ∀ m rest, m !! "url" = None →
            expandLogsinkConfig (VMap m :: rest) = Panicked InterfaceConversion.
Proof.
  apply (optional_fields_are_required _ "url" (optional TypeString) eq_refl).
  repeat constructor.
Defined.

(** The config block of the acceptance test leaves nine fields out. *)
Lemma test_config_does_not_expand :
  expandLogsinkConfig [VMap testConfigMap] = Panicked InterfaceConversion.
Proof. vm_compute. reflexivity. Qed.
